(** * Type schema and sampling plans of [stellar/data/stellargraph.py]

    A shallow embedding of [GraphSchema] and
    [StellarGraphBase.create_graph_schema]: Python dicts are [gmap]s, Python
    sets are [gset]s, lists are lists, exceptions are an explicit outcome
    type, and the [try ... except: ... None] lookups return [option]. *)

From Stdlib Require Import Ascii String.
From stdpp Require Import base tactics option list sorting lexico
  countable strings pretty gmap.

#[local] Set Warnings "-clear-no-such-hyp".

Open Scope Z_scope.

(** ** Python values and outcomes *)

(** Node identities are Python ints, type labels are Python strs. *)
Abbreviation node := Z (only parsing).
Abbreviation label := string (only parsing).

(** The exceptions the module can raise. *)
Inductive exn : Set :=
  | KeyError
  | IndexError
  | ValueError
  | TypeError
  | NameError
  | RecursionError
  | AttributeError.

(** Outcome of running a piece of Python: a value, a raised exception, or
    [Timeout] when the fuel of a [while] loop of the model is used up (no
    Python outcome corresponds to it). *)
Inductive outcome (A : Type) : Type :=
  | Ok (a : A)
  | Raise (e : exn)
  | Timeout.
Arguments Ok {A} a.
Arguments Raise {A} e.
Arguments Timeout {A}.

Global Instance outcome_bind : MBind outcome := λ A B f m,
  match m with
  | Ok a => f a
  | Raise e => Raise e
  | Timeout => Timeout
  end.
Global Instance outcome_ret : MRet outcome := λ A a, Ok a.

(** [d[k]] on a dict: KeyError when the key is missing. *)
Definition getitem `{Countable K} {V} (d : gmap K V) (k : K) : outcome V :=
  match d !! k with
  | Some v => Ok v
  | None => Raise KeyError
  end.

(** [l[i]] on a list with a Python int index: a negative index counts from
    the end, anything outside [-len(l) .. len(l)-1] is an IndexError. *)
Definition list_getitem {A} (l : list A) (i : Z) : outcome A :=
  let k := Z.of_nat (length l) in
  if decide (0 ≤ i) then
    match l !! Z.to_nat i with
    | Some x => Ok x
    | None => Raise IndexError
    end
  else if decide (- k ≤ i) then
    match l !! Z.to_nat (k + i) with
    | Some x => Ok x
    | None => Raise IndexError
    end
  else Raise IndexError.

(** [l.index(x)]: position of the first occurrence, ValueError if none. *)
Definition list_index `{EqDecision A} (l : list A) (x : A) : outcome Z :=
  match list_find (λ y, y = x) l with
  | Some (i, _) => Ok (Z.of_nat i)
  | None => Raise ValueError
  end.

(** What a bare [try: ... except: x = None] leaves in [x]. *)
Definition try_except {A} (m : outcome A) : option A :=
  match m with
  | Ok a => Some a
  | _ => None
  end.

(** ** The order Python uses on labels and on [EdgeType] tuples *)

(** Strings compare character by character on their code points. *)
Global Instance ascii_lexico : Lexico ascii :=
  λ a b, (N_of_ascii a < N_of_ascii b)%N.
Global Instance string_lexico : Lexico string :=
  λ s t, lexico (list_ascii_of_string s) (list_ascii_of_string t).

(** [EdgeType = namedtuple("EdgeType", "n1 rel n2")] *)
Record EdgeType : Set := mkEdgeType { n1 : label; rel : label; n2 : label }.

Definition EdgeType_to_tuple (et : EdgeType) : label * (label * label) :=
  (n1 et, (rel et, n2 et)).
Definition EdgeType_of_tuple (t : label * (label * label)) : EdgeType :=
  mkEdgeType t.1 t.2.1 t.2.2.

(** Tuples compare field by field, first difference decides. *)
Global Instance EdgeType_lexico : Lexico EdgeType :=
  λ a b, lexico (EdgeType_to_tuple a) (EdgeType_to_tuple b).

Global Instance EdgeType_eq_dec : EqDecision EdgeType.
Proof. solve_decision. Defined.
Global Instance EdgeType_countable : Countable EdgeType.
Proof.
  refine (inj_countable' EdgeType_to_tuple EdgeType_of_tuple _).
  by intros [].
Defined.

(** [x <= y]: decided through the trichotomy of the strict order. *)
Definition lexico_leb `{Lexico A, !TrichotomyT (@lexico A _)} (x y : A) : bool :=
  match trichotomyT lexico x y with
  | inleft _ => true
  | inright _ => false
  end.

Definition lexico_le `{Lexico A, !TrichotomyT (@lexico A _)} : relation A :=
  λ x y, lexico_leb x y.
Global Instance lexico_le_dec `{Lexico A, !TrichotomyT (@lexico A _)} :
  RelDecision (@lexico_le A _ _).
Proof. intros x y. unfold lexico_le. apply _. Defined.

(** [sorted(xs)] *)
Definition sorted `{Lexico A, !TrichotomyT (@lexico A _)}
    (l : list A) : list A :=
  merge_sort lexico_le l.

(** A strict order pulled back along an injection stays a strict order
    with trichotomy. *)
Section pullback.
Context {A B : Type} (f : A → B) `{!Inj (=) (=) f}.
Context `{Lexico B, !TrichotomyT (@lexico B _)}.

Definition pullback_trichotomyT : TrichotomyT (λ x y : A, lexico (f x) (f y)).
Proof.
  intros x y. destruct (trichotomyT lexico (f x) (f y)) as [[?|Heq]|?].
  - by left; left.
  - left; right. by apply (inj f).
  - by right.
Defined.
End pullback.

Global Instance N_of_ascii_inj : Inj (=) (=) N_of_ascii.
Proof.
  intros a b Hab. by rewrite <-(ascii_N_embedding a), <-(ascii_N_embedding b), Hab.
Qed.
Global Instance list_ascii_of_string_inj : Inj (=) (=) list_ascii_of_string.
Proof.
  intros s t Hst.
  by rewrite <-(string_of_list_ascii_of_string s),
    <-(string_of_list_ascii_of_string t), Hst.
Qed.
Global Instance EdgeType_to_tuple_inj : Inj (=) (=) EdgeType_to_tuple.
Proof. intros [] [] [=]. by simplify_eq/=. Qed.

Global Instance ascii_lexico_trichotomy : TrichotomyT (@lexico ascii _) :=
  pullback_trichotomyT N_of_ascii (H:=N_lexico).
Global Instance string_lexico_trichotomy : TrichotomyT (@lexico string _) :=
  pullback_trichotomyT list_ascii_of_string (H:=list_lexico).
Global Instance EdgeType_lexico_trichotomy : TrichotomyT (@lexico EdgeType _) :=
  pullback_trichotomyT EdgeType_to_tuple (H:=prod_lexico).

(** A [for] loop whose body may raise, threading the loop state. *)
Fixpoint foldlM {A B} (f : B → A → outcome B) (b : B) (l : list A) : outcome B :=
  match l with
  | [] => Ok b
  | x :: l => b' ← f b x; foldlM f b' l
  end.

(** [enumerate(l)] *)
Definition enumerate {A} (l : list A) : list (nat * A) := imap pair l.

(** [sep.join(l)] *)
Fixpoint str_join (sep : string) (l : list string) : string :=
  match l with
  | [] => ""
  | [x] => x
  | x :: l => x +:+ sep +:+ str_join sep l
  end.

(** ** [class GraphSchema] *)

(** [node_types], [edge_types] and [schema] are always set by the builder;
    the two type maps stay [None] unless [create_type_maps] is on. *)
Record GraphSchema : Type := mkGraphSchema {
  node_types : list label;
  edge_types : list EdgeType;
  schema : gmap label (list EdgeType);
  node_type_map : option (gmap node Z);
  edge_type_map : option (gmap (node * node) Z)
}.

(** Subscripting an attribute that is still [None] is a TypeError. *)
Definition map_getitem `{Countable K} {V} (d : option (gmap K V)) (k : K) : outcome V :=
  match d with
  | Some m => getitem m k
  | None => Raise TypeError
  end.

Definition node_key_to_index (gs : GraphSchema) (key : label) : option Z :=
  try_except (list_index (node_types gs) key).

Definition node_index_to_key (gs : GraphSchema) (index : Z) : option label :=
  try_except (list_getitem (node_types gs) index).

Definition edge_key_to_index (gs : GraphSchema) (key : EdgeType) : option Z :=
  try_except (list_index (edge_types gs) key).

Definition edge_index_to_key (gs : GraphSchema) (index : Z) : option EdgeType :=
  try_except (list_getitem (edge_types gs) index).

(** [get_node_type] returns an index ([inl]) or a type name ([inr]).  In
    the [else] arm the source subscripts [node_types] with the flag [index]
    itself, and the bool [False] is the int 0. *)
Definition get_node_type (gs : GraphSchema) (n : node) (index : bool)
    : option (Z + label) :=
  try_except (
    nt ← map_getitem (node_type_map gs) n;
    if index then Ok (inl nt)
    else key ← list_getitem (node_types gs) (Z.b2z index); Ok (inr key)).

Definition get_edge_type (gs : GraphSchema) (edge : node * node) (index : bool)
    : option (Z + EdgeType) :=
  try_except (
    et ← match edge_type_map gs with
         | None => Raise TypeError
         | Some m =>
             if decide (is_Some (m !! edge)) then getitem m edge
             else getitem m (edge.2, edge.1)
         end;
    if index then Ok (inl et)
    else key ← list_getitem (edge_types gs) et; Ok (inr key)).

Definition get_edge_types (gs : GraphSchema) (node_type : label) : list EdgeType :=
  default [] (try_except (getitem (schema gs) node_type)).

(** ** [get_sampling_tree] *)

(** A child of the sampling tree: [(unique_id, edge_type, [children])]. *)
#[warnings="-register-all"]
Inductive tnode : Type :=
  | Tnode (id : string) (et : EdgeType) (children : list tnode).

(** A root of the sampling tree: [(unique_id, node_type, [children])]. *)
Abbreviation troot := (string * label * list tnode)%type (only parsing).

(** [gen_key(key, *args)]: [key + "_".join(map(str, args))] *)
Definition gen_key (key : string) (args : list nat) : string :=
  key +:+ str_join "_" (pretty <$> args).

(** The inner [get_neighbor_types].  [limit] is the interpreter's bound on
    the depth of the call stack: a call that would exceed it raises
    RecursionError. *)
Fixpoint get_neighbor_types (sch : gmap label (list EdgeType)) (limit : nat)
    (node_type : label) (level : Z) (key : string) : outcome (list tnode) :=
  match limit with
  | O => Raise RecursionError
  | S limit =>
      if decide (level = 0) then Ok []
      else
        ets ← getitem sch node_type;
        mapM (λ '(ii, et),
                ch ← get_neighbor_types sch limit (n2 et) (level - 1)
                       (gen_key key [ii] +:+ "_");
                Ok (Tnode (gen_key key [ii]) et ch))
             (enumerate ets)
  end.

Definition get_sampling_tree (gs : GraphSchema) (limit : nat)
    (head_node_types : list label) (n_hops : Z) : outcome (list troot) :=
  mapM (λ '(jj, node_type),
          ch ← get_neighbor_types (schema gs) limit node_type n_hops
                 (gen_key "" [jj] +:+ "#");
          Ok (pretty jj, node_type, ch))
       (enumerate head_node_types).

(** ** [get_type_adjacency_list] *)

(** An entry [(node_type, [child_1, child_2, ...])] of the list. *)
Abbreviation centry := (label * list nat)%type (only parsing).
(** An item [(node type, node index, level)] of the work queue. *)
Abbreviation qitem := (label * nat * nat)%type (only parsing).

(** [clist[ninx][1].append(cinx)] *)
Definition append_child (clist : list centry) (ninx cinx : nat)
    : outcome (list centry) :=
  match clist !! ninx with
  | Some (nt, cs) => Ok (<[ninx := (nt, cs ++ [cinx])]> clist)
  | None => Raise IndexError
  end.

(** The body of [for et in ets]. *)
Definition visit_edge_type (n_hops : Z) (ninx lvl : nat)
    (st : list centry * list qitem) (et : EdgeType)
    : outcome (list centry * list qitem) :=
  let '(clist, to_process) := st in
  let cinx := length clist in
  let clist := clist ++ [(n2 et, [])] in
  clist ← append_child clist ninx cinx;
  let to_process :=
    if decide (n_hops > Z.of_nat lvl + 1)
    then to_process ++ [(n2 et, cinx, S lvl)] else to_process in
  Ok (clist, to_process).

(** [while not to_process.empty()], with [fuel] bounding the number of
    iterations. *)
Fixpoint process_queue (sch : gmap label (list EdgeType)) (n_hops : Z)
    (fuel : nat) (clist : list centry) (to_process : list qitem)
    : outcome (list centry) :=
  match to_process with
  | [] => Ok clist
  | (nt, ninx, lvl) :: to_process =>
      match fuel with
      | O => Timeout
      | S fuel =>
          ets ← getitem sch nt;
          '(clist, to_process) ←
            foldlM (visit_edge_type n_hops ninx lvl) (clist, to_process) ets;
          process_queue sch n_hops fuel clist to_process
      end
  end.

(** The body of [for ii, hn in enumerate(head_node_types)]. *)
Definition add_head (n_hops : Z) (st : list centry * list qitem)
    (h : nat * label) : list centry * list qitem :=
  let '(clist, to_process) := st in
  let '(ii, hn) := h in
  let to_process :=
    if decide (n_hops > 0) then to_process ++ [(hn, ii, 0%nat)] else to_process in
  (clist ++ [(hn, [])], to_process).

Definition get_type_adjacency_list (gs : GraphSchema) (fuel : nat)
    (head_node_types : list label) (n_hops : Z) : outcome (list centry) :=
  let '(clist, to_process) :=
    foldl (add_head n_hops) ([], []) (enumerate head_node_types) in
  process_queue (schema gs) n_hops fuel clist to_process.

(** ** The multigraph behind [StellarGraphBase] *)

(** Modelled from the spec: the networkx multigraph that [StellarGraphBase]
    inherits its storage from is not part of the module.  Following the
    collaborator interface of the specification, a graph is the dict of its
    nodes with their type label ([self.node[n][self._node_type_attr]]), the
    enumeration of its edges as two endpoints and a relation label
    ([self.edges(data=True)]; [self.edges()] yields the endpoint pairs in
    the same order), and the directedness flag.

    That interface has no lookup of the data of one edge by its endpoint
    pair, and networkx has none under the name [edge], which
    [create_graph_schema] subscripts: networkx 1.x keeps the adjacency
    dict there, whose keys are nodes, and from networkx 2.0 on a graph has
    no attribute [edge] at all.  [has_edge_attr] tells which of the two the
    object is. *)
Record Graph : Type := mkGraph {
  graph_node : gmap node label;
  graph_edges : list (node * node * label);
  is_directed : bool;
  has_edge_attr : bool
}.

(** [self.nodes(data=True)] *)
Definition graph_nodes (g : Graph) : list (node * label) :=
  map_to_list (graph_node g).

(** [self.edges()] *)
Definition graph_edge_pairs (g : Graph) : list (node * node) :=
  fst <$> graph_edges g.

(** [self.edge[e][self._edge_type_attr]] for an endpoint pair [e].  Without
    the attribute [edge] the access is an AttributeError.  With it, the
    pair is looked up among the keys of the adjacency dict, which are
    nodes: a pair of ints is none of them, and the subscript is a KeyError.
    No edge data comes back either way. *)
Definition edge_getitem (g : Graph) (e : node * node) : outcome label :=
  if has_edge_attr g then Raise KeyError else Raise AttributeError.

(** ** [create_graph_schema] *)

(** The body of [for e in self.edges()]: the state is the set [edge_types]
    and the dict of sets [graph_schema].  The body starts with
    [edata = self.edge[e]]; the label [edata[self._edge_type_attr]] is read
    from it three lines further down. *)
Definition scan_edge (g : Graph)
    (st : gset EdgeType * gmap label (gset EdgeType))
    (e : node * node)
    : outcome (gset EdgeType * gmap label (gset EdgeType)) :=
  let '(edge_types, graph_schema) := st in
  edge_type ← edge_getitem g e;
  let '(n1, n2) := e in
  node_type_1 ← getitem (graph_node g) n1;
  node_type_2 ← getitem (graph_node g) n2;
  let edge_type_tri := mkEdgeType node_type_1 edge_type node_type_2 in
  let edge_types := edge_types ∪ {[edge_type_tri]} in
  node_data ← getitem graph_schema node_type_1;
  let graph_schema := <[node_type_1 := node_data ∪ {[edge_type_tri]}]> graph_schema in
  if is_directed g then Ok (edge_types, graph_schema)
  else
    let edge_type_tri := mkEdgeType node_type_2 edge_type node_type_1 in
    let edge_types := edge_types ∪ {[edge_type_tri]} in
    node_data ← getitem graph_schema node_type_2;
    Ok (edge_types,
        <[node_type_2 := node_data ∪ {[edge_type_tri]}]> graph_schema).

(** One value of the [schema] comprehension: the indices of the members of
    [node_data] in [edge_types], sorted, and read back. *)
Definition schema_entry (edge_types : list EdgeType) (node_data : gset EdgeType)
    : outcome (list EdgeType) :=
  idxs ← mapM (list_index edge_types) (elements node_data);
  mapM (list_getitem edge_types) (sorted idxs).

(** A dict comprehension over the items of a dict, keeping the keys. *)
Definition dict_comprehension `{Countable K} {V W} (f : K → V → outcome W)
    (d : gmap K V) : outcome (gmap K W) :=
  items ← mapM (λ '(k, v), w ← f k v; Ok (k, w)) (map_to_list d);
  Ok (list_to_map items).

(** One step of the [edge_type_map] comprehension.  Its key is the name
    [e], which the comprehension does not bind: it is the variable of the
    earlier [for e in self.edges()] loop, [e_loop] here, unbound when that
    loop never ran. *)
Definition edge_type_map_step (node_types : list label)
    (edge_types : list EdgeType) (node_type_map : gmap node Z)
    (e_loop : option (node * node))
    (m : gmap (node * node) Z) (x : node * node * label)
    : outcome (gmap (node * node) Z) :=
  let '(n1, n2, edata) := x in
  e ← from_option Ok (Raise NameError) e_loop;
  i1 ← getitem node_type_map n1;
  t1 ← list_getitem node_types i1;
  i2 ← getitem node_type_map n2;
  t2 ← list_getitem node_types i2;
  v ← list_index edge_types (mkEdgeType t1 edata t2);
  Ok (<[e := v]> m).

Definition create_graph_schema (g : Graph) (create_type_maps : bool)
    : outcome GraphSchema :=
  let node_types :=
    sorted (elements (list_to_set (snd <$> graph_nodes g) : gset label)) in
  let graph_schema : gmap label (gset EdgeType) :=
    list_to_map ((λ nt, (nt, ∅)) <$> node_types) in
  '(edge_types, graph_schema) ←
    foldlM (scan_edge g) (∅, graph_schema) (graph_edge_pairs g);
  let e_loop := last (graph_edge_pairs g) in
  let edge_types := sorted (elements edge_types) in
  schema ← dict_comprehension (λ _, schema_entry edge_types) graph_schema;
  if create_type_maps then
    node_type_map ←
      dict_comprehension (λ _ ndata, list_index node_types ndata) (graph_node g);
    edge_type_map ←
      foldlM (edge_type_map_step node_types edge_types node_type_map e_loop)
             ∅ (graph_edges g);
    Ok (mkGraphSchema node_types edge_types schema
          (Some node_type_map) (Some edge_type_map))
  else Ok (mkGraphSchema node_types edge_types schema None None).

(** ** Sample inputs *)

(** The schema of the example of the specification: people rate movies. *)
Definition movie_schema : GraphSchema :=
  mkGraphSchema ["Movie"; "Person"]
    [mkEdgeType "Movie" "rates" "Person"; mkEdgeType "Person" "rates" "Movie"]
    (<["Movie" := [mkEdgeType "Movie" "rates" "Person"]]>
       (<["Person" := [mkEdgeType "Person" "rates" "Movie"]]> ∅))
    None None.

(** The same with directed ratings: movies have no outgoing edge type. *)
Definition directed_movie_schema : GraphSchema :=
  mkGraphSchema ["Movie"; "Person"]
    [mkEdgeType "Person" "rates" "Movie"]
    (<["Movie" := []]>
       (<["Person" := [mkEdgeType "Person" "rates" "Movie"]]> ∅))
    None None.

(** The same with a second edge type for people, who may also be friends. *)
Definition social_schema : GraphSchema :=
  mkGraphSchema ["Movie"; "Person"]
    [mkEdgeType "Person" "friend" "Person"; mkEdgeType "Person" "rates" "Movie"]
    (<["Movie" := []]>
       (<["Person" := [mkEdgeType "Person" "friend" "Person";
                       mkEdgeType "Person" "rates" "Movie"]]> ∅))
    None None.

(** Two people and a movie, two rating edges. *)
Definition movie_graph (directed edge_attr : bool) : Graph :=
  mkGraph (<[1 := "Person"]> (<[2 := "Movie"]> (<[3 := "Person"]> ∅)))
    [(1, 2, "rates"); (3, 2, "rates")] directed edge_attr.

(** The same nodes before anybody has rated anything: no edges. *)
Definition unrated_graph (directed edge_attr : bool) : Graph :=
  mkGraph (graph_node (movie_graph directed edge_attr)) [] directed edge_attr.

(** * Vocabulary of the properties *)

(** ** Adjacency lists that point forward *)

(** Every child index recorded in [clist] lies after its entry and inside
    the list. *)
Definition forward (clist : list centry) : Prop :=
  ∀ i nt cs c, clist !! i = Some (nt, cs) → c ∈ cs →
    (i < c < length clist)%nat.

(** Every queued item refers to an entry of [clist]. *)
Definition queue_in_range (clist : list centry) (q : list qitem) : Prop :=
  ∀ nt ninx lvl, (nt, ninx, lvl) ∈ q → (ninx < length clist)%nat.

(** ** Termination of the adjacency loop *)

(** Every target type of the schema is one of its keys. *)
Definition schema_closed (sch : gmap label (list EdgeType)) : Prop :=
  ∀ t ets et, sch !! t = Some ets → et ∈ ets → is_Some (sch !! n2 et).

(** The largest number of edge types leaving one node type. *)
Definition branching (sch : gmap label (list EdgeType)) : nat :=
  max_list ((λ kv, length kv.2) <$> map_to_list sch).

(** Iterations that one queued item with [d] levels left can cause. *)
Fixpoint weight (b d : nat) : nat :=
  match d with
  | O => O
  | S d => S (b * weight b d)
  end.

Definition item_weight (b : nat) (n_hops : Z) (x : qitem) : nat :=
  weight b (Z.to_nat (n_hops - Z.of_nat x.2)).

(** Enough iterations for [get_type_adjacency_list]. *)
Definition enough_fuel (sch : gmap label (list EdgeType))
    (heads : list label) (n_hops : Z) : nat :=
  length heads * weight (branching sch) (Z.to_nat n_hops).

(** What the queue holds while the loop runs. *)
Definition queue_ready (sch : gmap label (list EdgeType)) (n_hops : Z)
    (clist : list centry) (q : list qitem) : Prop :=
  ∀ nt ninx lvl, (nt, ninx, lvl) ∈ q →
    (ninx < length clist)%nat ∧ is_Some (sch !! nt) ∧ Z.of_nat lvl < n_hops.

(** ** Type paths of the two sampling plans *)

(** The type paths below a tree node: the node types met from it down to
    each leaf. *)
Fixpoint tnode_paths (c : tnode) : list (list label) :=
  match c with
  | Tnode _ et ch =>
      match ch with
      | [] => [[n2 et]]
      | _ :: _ => cons (n2 et) <$> (ch ≫= tnode_paths)
      end
  end.

Definition troot_paths (r : troot) : list (list label) :=
  match r.2 with
  | [] => [[r.1.2]]
  | _ :: _ => cons r.1.2 <$> (r.2 ≫= tnode_paths)
  end.

(** The type paths a sampling tree encodes, from its roots to its leaves. *)
Definition tree_paths (tree : list troot) : list (list label) :=
  tree ≫= troot_paths.

(** The type paths below the entry [i] of an adjacency list, following the
    child indices ([fuel] bounds the number of entries on a path). *)
Fixpoint adj_paths_from (clist : list centry) (fuel i : nat)
    : list (list label) :=
  match fuel with
  | O => []
  | S fuel =>
      match clist !! i with
      | None => []
      | Some (nt, []) => [[nt]]
      | Some (nt, cs) => cons nt <$> (cs ≫= adj_paths_from clist fuel)
      end
  end.

(** The type paths an adjacency list encodes: its roots are the first
    [heads] entries, and no path has more entries than the list. *)
Definition adj_paths (heads : nat) (clist : list centry) : list (list label) :=
  seq 0 heads ≫= adj_paths_from clist (length clist).

(** The type paths of length at most [d] that the schema allows from the
    node type [t]. *)
Fixpoint expand_paths (sch : gmap label (list EdgeType)) (d : nat) (t : label)
    : list (list label) :=
  match d with
  | O => [[t]]
  | S d =>
      match default [] (sch !! t) with
      | [] => [[t]]
      | ets => cons t <$> (ets ≫= λ et, expand_paths sch d (n2 et))
      end
  end.

(** ** The loop invariant of [get_type_adjacency_list] *)

(** [lv] is ghost state: the level at which each entry was created. *)

(** The entry [i] has been expanded: it has one child per edge type of its
    node type, in order, one level down -- or it sits at level [n_hops]
    and has none. *)
Definition entry_done (sch : gmap label (list EdgeType)) (n_hops : Z)
    (clist : list centry) (lv : list nat) (i : nat) : Prop :=
  ∀ nt cs l, clist !! i = Some (nt, cs) → lv !! i = Some l →
    (Z.of_nat l < n_hops ∧
     ∃ ets, sch !! nt = Some ets ∧
       Forall2 (λ et c, (i < c)%nat ∧ fst <$> clist !! c = Some (n2 et) ∧
                        lv !! c = Some (S l)) ets cs) ∨
    (Z.of_nat l = n_hops ∧ cs = []).

Definition queue_inv (sch : gmap label (list EdgeType)) (n_hops : Z)
    (heads : list label) (clist : list centry) (lv : list nat)
    (q : list qitem) : Prop :=
  length lv = length clist ∧
  NoDup (q.*1.*2) ∧
  (∀ nt ninx lvl, (nt, ninx, lvl) ∈ q →
     clist !! ninx = Some (nt, []) ∧ lv !! ninx = Some lvl ∧
     Z.of_nat lvl < n_hops) ∧
  (∀ i, (i < length clist)%nat → i ∉ q.*1.*2 →
     entry_done sch n_hops clist lv i) ∧
  (∀ j hn, heads !! j = Some hn →
     fst <$> clist !! j = Some hn ∧ lv !! j = Some 0%nat).

(** ** The schema of a graph *)

(** Where [l.index(x)] finds [x]. *)
Definition index_of `{EqDecision A} (l : list A) (x : A) : nat :=
  default 0%nat (fst <$> list_find (λ y, y = x) l).

(** The exception of [self.edge[e]]. *)
Definition edge_error (g : Graph) : exn :=
  if has_edge_attr g then KeyError else AttributeError.

(** The [node_types] of the schema of [g]. *)
Definition graph_node_types (g : Graph) : list label :=
  sorted (elements (list_to_set (snd <$> graph_nodes g) : gset label)).

(** The node type indices of the nodes of [g]. *)
Definition graph_node_type_map (g : Graph) : gmap node Z :=
  (λ t, Z.of_nat (index_of (graph_node_types g) t)) <$> graph_node g.

(** The schema of a graph without edges: its node types, no edge type, an
    empty list of edge types under every node type, and, on request, the
    type indices of the nodes and an empty [edge_type_map]. *)
Definition edgeless_schema (g : Graph) (create_type_maps : bool) : GraphSchema :=
  mkGraphSchema (graph_node_types g) []
    (list_to_map ((λ nt, (nt, [])) <$> graph_node_types g))
    (if create_type_maps then Some (graph_node_type_map g) else None)
    (if create_type_maps then Some ∅ else None).

(** ** Identifiers of the sampling tree *)

(** The decimal digits, the only characters [str] of an index produces. *)
Definition is_digit (a : ascii) : bool :=
  bool_decide (a ∈ ["0"; "1"; "2"; "3"; "4"; "5"; "6"; "7"; "8"; "9"]%char).

Fixpoint all_digits (s : string) : bool :=
  match s with
  | EmptyString => true
  | String a s => is_digit a && all_digits s
  end.

(** What may follow an index inside an identifier: nothing, or text that
    starts with a separator. *)
Definition sep_start (s : string) : bool :=
  match s with
  | EmptyString => true
  | String a _ => negb (is_digit a)
  end.

Definition tnode_id (c : tnode) : string :=
  match c with Tnode id _ _ => id end.

Definition tnode_et (c : tnode) : EdgeType :=
  match c with Tnode _ et _ => et end.

Definition tnode_children (c : tnode) : list tnode :=
  match c with Tnode _ _ ch => ch end.

(** A node and everything below it. *)
Fixpoint tnode_nodes (c : tnode) : list tnode :=
  match c with
  | Tnode _ _ ch => c :: (ch ≫= tnode_nodes)
  end.

(** All the children entries of a sampling tree, at every depth. *)
Definition tree_nodes (tree : list troot) : list tnode :=
  tree ≫= λ r, r.2 ≫= tnode_nodes.

(** All the identifiers of a sampling tree: roots and children entries. *)
Definition tree_ids (tree : list troot) : list string :=
  tree ≫= λ r, r.1.1 :: (tnode_id <$> (r.2 ≫= tnode_nodes)).

(** The children of the entry [n] are the edge types of its target type,
    in order (or there are none), and child [i] is named after [n]: the
    id of [n], an underscore, and [i]. *)
Definition node_keyed (sch : gmap label (list EdgeType)) (n : tnode) : Prop :=
  (tnode_children n = [] ∨
   sch !! n2 (tnode_et n) = Some (tnode_et <$> tnode_children n)) ∧
  ∀ i c, tnode_children n !! i = Some c →
    tnode_id c = tnode_id n +:+ "_" +:+ pretty i.

(** [ch] are the children of a root or entry of type [t] with [d] hops
    left: none when [d] is 0; else one per edge type of [schema[t]], in
    order, each with that edge type and, below it, the children of its
    target type with one hop less. *)
Fixpoint expanded (sch : gmap label (list EdgeType)) (d : nat) (t : label)
    (ch : list tnode) : Prop :=
  match d with
  | O => ch = []
  | S d =>
      ∃ ets, sch !! t = Some ets ∧
        Forall2 (λ et c, tnode_et c = et ∧
                   expanded sch d (n2 et) (tnode_children c)) ets ch
  end.

(** ** Walks of the schema *)

(** [p] is a walk of the schema that starts at the type [t], makes at most
    [d] hops, each along an edge type leaving the type reached, and stops
    before [d] hops only at a type without outgoing edge types. *)
Definition schema_walk (sch : gmap label (list EdgeType)) (d : nat) (t : label)
    (p : list label) : Prop :=
  p !! 0%nat = Some t ∧
  (length p ≤ S d)%nat ∧
  (∀ k ta tb, p !! k = Some ta → p !! S k = Some tb →
     ∃ ets et, sch !! ta = Some ets ∧ et ∈ ets ∧ n2 et = tb) ∧
  (length p = S d ∨ ∃ tl, last p = Some tl ∧ default [] (sch !! tl) = []).

(** The children of every entry are consecutive indices. *)
Definition contiguous (clist : list centry) : Prop :=
  ∀ i nt cs, clist !! i = Some (nt, cs) → ∃ a, cs = seq a (length cs).

(** The queue holds its items in the order of their entries, every
    entry that already has children lies before all of them, and the
    children recorded so far, read in the order of the entries, are the
    indices from [heads] on, one after the other. *)
Definition bfs_order (heads : nat) (clist : list centry) (q : list qitem)
    : Prop :=
  StronglySorted lt (q.*1.*2) ∧
  (∀ i nt cs, clist !! i = Some (nt, cs) → cs ≠ [] →
     Forall (λ j, i < j)%nat (q.*1.*2)) ∧
  (heads ≤ length clist)%nat ∧
  concat (snd <$> clist) = seq heads (length clist - heads).

(** * Properties *)

(** ** The orders are strict orders *)

Section pullback_order.
Context {A B : Type} (f : A → B).
Context `{Lexico B, !StrictOrder (@lexico B _)}.

Lemma pullback_strict_order : StrictOrder (λ x y : A, lexico (f x) (f y)).
Proof.
  split.
  - intros x Hx. by apply (irreflexivity lexico (f x)).
  - intros x y z ??. by trans (f y).
Qed.

End pullback_order.

Global Instance ascii_lexico_po : StrictOrder (@lexico ascii _).
Proof. apply (pullback_strict_order N_of_ascii (H:=N_lexico)). Qed.
Global Instance string_lexico_po : StrictOrder (@lexico string _).
Proof. apply (pullback_strict_order list_ascii_of_string (H:=list_lexico)). Qed.
Global Instance EdgeType_lexico_po : StrictOrder (@lexico EdgeType _).
Proof. apply (pullback_strict_order EdgeType_to_tuple (H:=prod_lexico)). Qed.

(** ** Index lookups *)

Lemma list_getitem_nonneg {A} (l : list A) (i : Z) :
  0 ≤ i → try_except (list_getitem l i) = l !! Z.to_nat i.
Proof.
  intros Hi. unfold list_getitem. rewrite decide_True by done.
  by destruct (l !! Z.to_nat i).
Qed.

Lemma list_getitem_negative {A} (l : list A) (i : Z) :
  - Z.of_nat (length l) ≤ i < 0 →
  try_except (list_getitem l i) = l !! Z.to_nat (Z.of_nat (length l) + i).
Proof.
  intros Hi. unfold list_getitem.
  rewrite decide_False, decide_True by lia.
  by destruct (l !! _).
Qed.

Lemma list_getitem_None {A} (l : list A) (i : Z) :
  try_except (list_getitem l i) = None ↔
  Z.of_nat (length l) ≤ i ∨ i < - Z.of_nat (length l).
Proof.
  destruct (decide (0 ≤ i)) as [Hi|Hi].
  - rewrite list_getitem_nonneg, lookup_ge_None by done. lia.
  - destruct (decide (- Z.of_nat (length l) ≤ i)) as [Hj|Hj].
    + rewrite list_getitem_negative, lookup_ge_None by lia. lia.
    + unfold list_getitem. rewrite !decide_False by done. simpl. split; [lia|done].
Qed.

(** C10: a negative index between [-k] and [-1] reads [node_types] from the
    end (position [k + i]) instead of giving absent; absent is returned
    exactly for [i >= k] and [i < -k]; the same holds for
    [edge_index_to_key] over [edge_types]. *)
Theorem index_to_key_end_relative (gs : GraphSchema) (i : Z) :
  let k := Z.of_nat (length (node_types gs)) in
  let m := Z.of_nat (length (edge_types gs)) in
  (1 ≤ k → - k ≤ i ≤ -1 →
     is_Some (node_index_to_key gs i) ∧
     node_index_to_key gs i = node_types gs !! Z.to_nat (k + i)) ∧
  (node_index_to_key gs i = None ↔ k ≤ i ∨ i < - k) ∧
  (1 ≤ m → - m ≤ i ≤ -1 →
     is_Some (edge_index_to_key gs i) ∧
     edge_index_to_key gs i = edge_types gs !! Z.to_nat (m + i)) ∧
  (edge_index_to_key gs i = None ↔ m ≤ i ∨ i < - m).
Proof.
  intros k m. unfold node_index_to_key, edge_index_to_key.
  split_and!.
  - intros _ Hi. rewrite list_getitem_negative by (fold k; lia).
    split; [|done]. apply lookup_lt_is_Some. lia.
  - apply list_getitem_None.
  - intros _ Hi. rewrite list_getitem_negative by (fold m; lia).
    split; [|done]. apply lookup_lt_is_Some. lia.
  - apply list_getitem_None.
Qed.

(** The last node type and the first edge type of the movie schema, read
    with negative indices. *)
Lemma index_to_key_end_relative_witness :
  node_index_to_key movie_schema (-1) = Some "Person" ∧
  edge_index_to_key movie_schema (-2) = Some (mkEdgeType "Movie" "rates" "Person").
Proof.
  pose proof (index_to_key_end_relative movie_schema (-1)) as (Hn & _ & _ & _).
  pose proof (index_to_key_end_relative movie_schema (-2)) as (_ & _ & He & _).
  split.
  - destruct Hn as [_ ->]; [simpl; lia | simpl; lia | reflexivity].
  - destruct He as [_ ->]; [simpl; lia | simpl; lia | reflexivity].
Defined.

(** ** [get_node_type] *)

Lemma get_node_type_index (gs : GraphSchema) (n : node) :
  get_node_type gs n true =
  inl <$> (node_type_map gs ≫= λ m, m !! n).
Proof.
  unfold get_node_type, map_getitem, getitem.
  destruct (node_type_map gs) as [m|]; simpl; [|done].
  by destruct (m !! n).
Qed.

Lemma get_node_type_name (gs : GraphSchema) (n : node) :
  get_node_type gs n false =
  (node_type_map gs ≫= λ m, m !! n) ≫= λ _, inr <$> node_types gs !! 0%nat.
Proof.
  unfold get_node_type, map_getitem, getitem.
  destruct (node_type_map gs) as [m|]; simpl; [|done].
  destruct (m !! n); simpl; [|done].
  unfold list_getitem. simpl. by destruct (node_types gs).
Qed.

(** C2: on the schema built with type maps from the graph with a "Movie"
    node 2 and the "Person" nodes 1 and 3 (and no edges),
    [get_node_type] with [index=False] answers "Movie" for node 1: it reads
    [node_types] at the flag (position 0), not at the type index 1 that
    [index=True] reports for the same node. *)
Theorem get_node_type_name_ignores_node :
  ∀ directed edge_attr,
    ∃ gs, create_graph_schema (unrated_graph directed edge_attr) true = Ok gs ∧
      graph_node (unrated_graph directed edge_attr) !! 1 = Some "Person" ∧
      get_node_type gs 1 true = Some (inl 1) ∧
      node_types gs !! 1%nat = Some "Person" ∧
      get_node_type gs 1 false = Some (inr "Movie") ∧
      get_node_type gs 4 false = None.
Proof.
  intros [|] [|]; (eexists; split; [vm_compute; reflexivity|]; by vm_compute).
Qed.

(** ** [edge_type_map] *)

(** C1: on the graph with the edges (1,2) and (3,2) the builder, asked for
    type maps, raises at [self.edge[e]] for the first edge, whether or not
    the graph is directed and whether or not it has an attribute [edge]:
    no schema is returned, hence no [edge_type_map] with a key for the
    edge (1,2). *)
Theorem edge_type_map_is_never_built :
  ∀ directed edge_attr,
    (1, 2, "rates") ∈ graph_edges (movie_graph directed edge_attr) ∧
    create_graph_schema (movie_graph directed edge_attr) true =
      Raise (if edge_attr then KeyError else AttributeError) ∧
    ∀ gs, create_graph_schema (movie_graph directed edge_attr) true ≠ Ok gs.
Proof.
  intros directed edge_attr. split; [by left|].
  assert (create_graph_schema (movie_graph directed edge_attr) true =
          Raise (if edge_attr then KeyError else AttributeError)) as Hrun.
  { by destruct directed, edge_attr; vm_compute. }
  split; [done|]. intros gs. by rewrite Hrun.
Qed.

(** ** Loops that may raise *)

Lemma bind_Ok {A B} (a : A) (f : A → outcome B) : Ok a ≫= f = f a.
Proof. done. Qed.

Lemma mapM_nil_eq {A B} (f : A → outcome B) : mapM f [] = Ok [].
Proof. done. Qed.

Lemma mapM_cons_eq {A B} (f : A → outcome B) (x : A) (l : list A) :
  mapM f (x :: l) =
  match f x with
  | Ok y => match mapM f l with
            | Ok k => Ok (y :: k) | Raise e => Raise e | Timeout => Timeout
            end
  | Raise e => Raise e
  | Timeout => Timeout
  end.
Proof. done. Qed.

Lemma mapM_Ok_Forall2 {A B} (f : A → outcome B) (l : list A) (k : list B) :
  mapM f l = Ok k ↔ Forall2 (λ x y, f x = Ok y) l k.
Proof.
  revert k. induction l as [|x l IH]; intros k.
  - rewrite mapM_nil_eq. split; [intros [= <-]; constructor | by inversion 1].
  - rewrite mapM_cons_eq. split.
    + destruct (f x) as [y| |] eqn:Hy; try done.
      destruct (mapM f l) as [k'| |]; try done.
      intros [= <-]. constructor; [done|]. by apply IH.
    + inversion 1 as [|? y ? k' Hy Hk]; subst. rewrite Hy.
      apply IH in Hk. by rewrite Hk.
Qed.

Lemma mapM_ext_in {A B} (f g : A → outcome B) (l : list A) :
  (∀ x, x ∈ l → f x = g x) → mapM f l = mapM g l.
Proof.
  induction l as [|x l IH]; intros Hfg; [done|].
  rewrite !mapM_cons_eq, (Hfg x), IH; [done| |by left].
  intros z ?. apply Hfg. by right.
Qed.

(** A loop over a list raises as soon as one body does, provided no body
    runs out of fuel. *)
Lemma mapM_Raise {A B} (f : A → outcome B) (l : list A) (x : A) :
  x ∈ l → (∃ e, f x = Raise e) → (∀ y, y ∈ l → f y ≠ Timeout) →
  ∃ e, mapM f l = Raise e.
Proof.
  induction l as [|y l IH]; intros Hx Hfx Hl; [by apply elem_of_nil in Hx|].
  rewrite mapM_cons_eq.
  destruct (f y) as [b|e|] eqn:Hy.
  - apply elem_of_cons in Hx as [->|Hx]; [destruct Hfx; congruence|].
    assert (∃ e, mapM f l = Raise e) as [e He].
    { apply IH; [done|done|]. intros z ?. apply Hl. by right. }
    rewrite He. eauto.
  - eauto.
  - exfalso. apply (Hl y); [by left|done].
Qed.

Lemma mapM_not_Timeout {A B} (f : A → outcome B) (l : list A) :
  (∀ y, y ∈ l → f y ≠ Timeout) → mapM f l ≠ Timeout.
Proof.
  induction l as [|y l IH]; intros Hl; [done|].
  rewrite mapM_cons_eq.
  destruct (f y) as [b|e|] eqn:Hy; [|done|destruct (Hl y); [by left|done]].
  destruct (mapM f l) eqn:?; [done|done|]. destruct IH; [|done].
  intros z ?. apply Hl. by right.
Qed.

Lemma mapM_Raise_inv {A B} (f : A → outcome B) (l : list A) (e : exn) :
  mapM f l = Raise e → ∃ x, x ∈ l ∧ f x = Raise e.
Proof.
  induction l as [|x l IH]; [done|]. rewrite mapM_cons_eq.
  destruct (f x) as [y|e'|] eqn:Hx; [|intros [= ->]; exists x; by split; [left|]|done].
  destruct (mapM f l) as [k|e'|]; [done| |done].
  intros [= ->]. destruct IH as (z & ? & ?); [done|]. exists z. by split; [right|].
Qed.

Lemma elem_of_enumerate {A} (l : list A) (i : nat) (x : A) :
  (i, x) ∈ enumerate l ↔ l !! i = Some x.
Proof.
  unfold enumerate. rewrite list_elem_of_lookup. split.
  - intros [j Hj]. rewrite list_lookup_imap in Hj.
    destruct (l !! j) eqn:?; simplify_eq/=. done.
  - intros Hi. exists i. by rewrite list_lookup_imap, Hi.
Qed.

(** ** Depth and head validation *)

Lemma get_neighbor_types_not_Timeout sch limit node_type level key :
  get_neighbor_types sch limit node_type level key ≠ Timeout.
Proof.
  revert node_type level key.
  induction limit as [|limit IH]; intros node_type level key; simpl; [done|].
  case_decide; [done|]. unfold getitem.
  destruct (sch !! node_type) as [ets|]; simpl; [|done].
  apply mapM_not_Timeout. intros [ii et] _.
  unfold mbind, outcome_bind.
  specialize (IH (n2 et) (level - 1) (gen_key key [ii] +:+ "_")).
  by destruct (get_neighbor_types _ _ _ _ _).
Qed.

(** The recursion raises nothing but the KeyError of a schema lookup and
    the RecursionError of the interpreter. *)
Lemma get_neighbor_types_Raise sch limit node_type level key e :
  get_neighbor_types sch limit node_type level key = Raise e →
  e = KeyError ∨ e = RecursionError.
Proof.
  revert node_type level key.
  induction limit as [|limit IH]; intros node_type level key; simpl.
  { intros [= <-]. by right. }
  case_decide; [done|]. unfold getitem.
  destruct (sch !! node_type) as [ets|]; [|intros [= <-]; by left].
  rewrite bind_Ok. intros ([ii et] & _ & Hbody)%mapM_Raise_inv.
  destruct (get_neighbor_types sch limit (n2 et) (level - 1)
              (gen_key key [ii] +:+ "_")) as [ch|e'|] eqn:Hrec; [done| |done].
  injection Hbody as ->. by eapply IH.
Qed.

(** Outside [0 .. limit-1] the level plays no role: the base case
    [level == 0] is out of reach of the call stack. *)
Lemma get_neighbor_types_unbounded sch limit node_type level level' key :
  level < 0 ∨ Z.of_nat limit ≤ level →
  level' < 0 ∨ Z.of_nat limit ≤ level' →
  get_neighbor_types sch limit node_type level key =
  get_neighbor_types sch limit node_type level' key.
Proof.
  revert node_type level level' key.
  induction limit as [|limit IH]; intros node_type level level' key ??;
    simpl; [done|].
  rewrite !decide_False by lia.
  destruct (getitem sch node_type) as [ets| |]; simpl; [|done..].
  apply mapM_ext_in. intros [ii et] _.
  by rewrite (IH _ (level - 1) (level' - 1)) by lia.
Qed.

Lemma add_head_eq n_hops clist to_process ii hn :
  add_head n_hops (clist, to_process) (ii, hn) =
  (clist ++ [(hn, [])],
   to_process ++ if decide (n_hops > 0) then [(hn, ii, 0%nat)] else []).
Proof. simpl. case_decide; by rewrite ?app_nil_r. Qed.

Lemma foldl_add_head n_hops (l : list label) (k : nat) clist to_process :
  foldl (add_head n_hops) (clist, to_process) (imap (λ i, pair (k + i)%nat) l) =
  (clist ++ ((λ hn, (hn, [])) <$> l),
   to_process ++ if decide (n_hops > 0)
                 then imap (λ i hn, (hn, (k + i)%nat, 0%nat)) l else []).
Proof.
  revert k clist to_process.
  induction l as [|hn l IH]; intros k clist to_process.
  - simpl. case_decide; by rewrite !app_nil_r.
  - rewrite imap_cons. cbn [foldl]. rewrite add_head_eq.
    rewrite (imap_ext _ (λ i, pair (S k + i)%nat)), IH
      by (intros; simpl; f_equal; lia).
    rewrite <-!(assoc_L (++)). f_equal. case_decide; [|done].
    rewrite imap_cons, Nat.add_0_r. simpl. do 2 f_equal.
    apply imap_ext. intros; simpl. do 2 f_equal. lia.
Qed.

Lemma get_type_adjacency_list_unfold gs fuel heads n_hops :
  get_type_adjacency_list gs fuel heads n_hops =
  process_queue (schema gs) n_hops fuel ((λ hn, (hn, [])) <$> heads)
    (if decide (n_hops > 0) then imap (λ i hn, (hn, i, 0%nat)) heads else []).
Proof.
  unfold get_type_adjacency_list, enumerate.
  change (imap pair heads) with (imap (λ i, pair (0 + i)%nat) heads).
  by rewrite foldl_add_head.
Qed.

(** Without a work queue the heads come back as they were entered. *)
Lemma get_type_adjacency_list_no_hops gs fuel heads n_hops :
  n_hops ≤ 0 →
  get_type_adjacency_list gs fuel heads n_hops = Ok ((λ hn, (hn, [])) <$> heads).
Proof.
  intros. rewrite get_type_adjacency_list_unfold, decide_False by lia.
  by destruct fuel.
Qed.

Lemma get_sampling_tree_zero_hops gs limit heads :
  get_sampling_tree gs (S limit) heads 0 =
  Ok (imap (λ jj hn, (pretty jj, hn, [])) heads).
Proof.
  unfold get_sampling_tree. apply mapM_Ok_Forall2.
  apply Forall2_lookup. intros i. unfold enumerate.
  rewrite !list_lookup_imap. destruct (heads !! i); simpl; by constructor.
Qed.

(** C3 (counterexample): with [n_hops = -1] nothing is rejected:
    [get_type_adjacency_list] returns the head entry, and
    [get_sampling_tree] returns a tree, here on the directed movie schema,
    whose expansion below "Person" is finite. *)
Lemma negative_depth_is_accepted :
  get_type_adjacency_list movie_schema 0 ["Person"] (-1) = Ok [("Person", [])] ∧
  get_sampling_tree movie_schema 1 [] (-1) = Ok [] ∧
  get_sampling_tree directed_movie_schema 3 ["Person"] (-1) =
    Ok [("0", "Person",
         [Tnode "0#0" (mkEdgeType "Person" "rates" "Movie") []])].
Proof. by vm_compute. Qed.

(** C3 (amended): for [n_hops < 0] no depth check exists.
    [get_type_adjacency_list] returns one childless entry per head, as for
    [n_hops = 0].  [get_sampling_tree] never meets its [level == 0] base
    case: it does what it does for any depth at or above the bound on the
    call stack, and the only exceptions it can raise are the KeyError of a
    schema lookup and the RecursionError of the interpreter. *)
Theorem negative_depth_unchecked gs limit fuel heads n_hops :
  n_hops < 0 →
  get_type_adjacency_list gs fuel heads n_hops =
    Ok ((λ hn, (hn, [])) <$> heads) ∧
  (∀ d, Z.of_nat limit ≤ d →
     get_sampling_tree gs limit heads n_hops = get_sampling_tree gs limit heads d) ∧
  get_sampling_tree gs limit heads n_hops ≠ Timeout ∧
  (∀ e, get_sampling_tree gs limit heads n_hops = Raise e →
     e = KeyError ∨ e = RecursionError).
Proof.
  intros Hn. split_and!.
  - apply get_type_adjacency_list_no_hops. lia.
  - intros d Hd. unfold get_sampling_tree. apply mapM_ext_in.
    intros [jj hn] _.
    by rewrite (get_neighbor_types_unbounded _ _ _ n_hops d) by lia.
  - apply mapM_not_Timeout. intros [jj hn] _.
    pose proof (get_neighbor_types_not_Timeout (schema gs) limit hn n_hops
                  (gen_key "" [jj] +:+ "#")).
    unfold mbind, outcome_bind. by destruct (get_neighbor_types _ _ _ _ _).
  - intros e ([jj hn] & _ & Hbody)%mapM_Raise_inv.
    destruct (get_neighbor_types (schema gs) limit hn n_hops
                (gen_key "" [jj] +:+ "#")) as [ch|e'|] eqn:Hrec; [done| |done].
    injection Hbody as ->. by eapply get_neighbor_types_Raise.
Qed.

(** Depth -2 on the movie schema. *)
Lemma negative_depth_unchecked_witness :
  get_type_adjacency_list movie_schema 0 ["Person"; "Movie"] (-2) =
    Ok [("Person", []); ("Movie", [])].
Proof.
  refine (proj1 (negative_depth_unchecked movie_schema 0 0 ["Person"; "Movie"] (-2) _)).
  lia.
Defined.

Lemma visit_edge_type_cases n_hops ninx lvl clist to_process et :
  (∃ clist' new, visit_edge_type n_hops ninx lvl (clist, to_process) et =
                 Ok (clist', to_process ++ new)) ∨
  (∃ e, visit_edge_type n_hops ninx lvl (clist, to_process) et = Raise e).
Proof.
  unfold visit_edge_type, append_child.
  destruct ((clist ++ [(n2 et, [])]) !! ninx) as [[nt cs]|]; simpl; [|eauto].
  left. case_decide; [eauto|]. eexists _, []. by rewrite app_nil_r.
Qed.

Lemma foldlM_visit_edge_type_cases n_hops ninx lvl ets clist to_process :
  (∃ clist' new,
     foldlM (visit_edge_type n_hops ninx lvl) (clist, to_process) ets =
     Ok (clist', to_process ++ new)) ∨
  (∃ e, foldlM (visit_edge_type n_hops ninx lvl) (clist, to_process) ets =
        Raise e).
Proof.
  revert clist to_process.
  induction ets as [|et ets IH]; intros clist to_process.
  { left. eexists clist, []. by rewrite app_nil_r. }
  cbn [foldlM].
  destruct (visit_edge_type_cases n_hops ninx lvl clist to_process et)
    as [(clist' & new & ->)|[e ->]]; [|eauto].
  cbn. destruct (IH clist' (to_process ++ new))
    as [(clist'' & new' & ->)|[e ->]]; [|eauto].
  left. exists clist'', (new ++ new'). by rewrite (assoc_L (++)).
Qed.

(** An item of an unknown node type in the queue aborts the loop once it
    is reached, if nothing before it does. *)
Lemma process_queue_unknown_type sch n_hops nt ninx lvl :
  sch !! nt = None →
  ∀ before after fuel clist,
    (length before < fuel)%nat →
    ∃ e, process_queue sch n_hops fuel clist
           (before ++ (nt, ninx, lvl) :: after) = Raise e.
Proof.
  intros Hnt before.
  induction before as [|[[nt' ninx'] lvl'] before IH];
    intros after [|fuel] clist Hfuel; simpl in Hfuel; try lia.
  - simpl. unfold getitem. rewrite Hnt. eauto.
  - simpl. unfold getitem. destruct (sch !! nt') as [ets|]; [|eauto].
    cbn.
    destruct (foldlM_visit_edge_type_cases n_hops ninx' lvl' ets clist
                (before ++ (nt, ninx, lvl) :: after))
      as [(clist' & new & ->)|[e ->]]; [|eauto].
    rewrite <-(assoc_L (++)). simpl. apply IH. lia.
Qed.

(** C5 (counterexample): at [n_hops = 0] a head type that the schema does
    not know is accepted by both generators. *)
Lemma unknown_head_accepted_at_depth_zero :
  schema movie_schema !! "Ghost" = None ∧
  get_sampling_tree movie_schema 1 ["Ghost"] 0 = Ok [("0", "Ghost", [])] ∧
  get_type_adjacency_list movie_schema 0 ["Ghost"] 0 = Ok [("Ghost", [])].
Proof. by vm_compute. Qed.

(** C5 (amended): for [n_hops >= 1] a head type absent from the schema
    makes both generators raise (the adjacency loop needs at most one
    iteration per head to get there); for [n_hops = 0] the schema is not
    consulted and both return the childless roots. *)
Theorem unknown_head_raises gs limit fuel heads n_hops hn :
  hn ∈ heads → schema gs !! hn = None →
  (1 ≤ n_hops →
     (∃ e, get_sampling_tree gs limit heads n_hops = Raise e) ∧
     ((length heads ≤ fuel)%nat →
      ∃ e, get_type_adjacency_list gs fuel heads n_hops = Raise e)) ∧
  (n_hops = 0 →
     get_sampling_tree gs (S limit) heads n_hops =
       Ok (imap (λ jj hn, (pretty jj, hn, [])) heads) ∧
     get_type_adjacency_list gs fuel heads n_hops =
       Ok ((λ hn, (hn, [])) <$> heads)).
Proof.
  intros Hhn Hsch. split.
  - intros Hn. split.
    + apply list_elem_of_lookup in Hhn as [jj Hjj].
      apply (mapM_Raise _ _ (jj, hn)).
      * by apply elem_of_enumerate.
      * destruct limit as [|limit]; simpl; [eauto|].
        rewrite decide_False by lia. unfold getitem. rewrite Hsch. eauto.
      * intros [ii h] _.
        pose proof (get_neighbor_types_not_Timeout (schema gs) limit h n_hops
                      (gen_key "" [ii] +:+ "#")).
        unfold mbind, outcome_bind. by destruct (get_neighbor_types _ _ _ _ _).
    + intros Hfuel. rewrite get_type_adjacency_list_unfold.
      rewrite decide_True by lia.
      apply list_elem_of_lookup in Hhn as [jj Hjj].
      pose proof (take_drop_middle heads jj hn Hjj) as Hsplit.
      replace (imap (λ (i : nat) (hn0 : label), (hn0, i, 0%nat)) heads)
        with (imap (λ (i : nat) (hn0 : label), (hn0, i, 0%nat))
                (take jj heads ++ hn :: drop (S jj) heads))
        by (by rewrite Hsplit).
      rewrite imap_app, imap_cons.
      apply process_queue_unknown_type; [done|].
      rewrite length_imap, length_take.
      apply lookup_lt_Some in Hjj. lia.
  - intros ->. split.
    + apply get_sampling_tree_zero_hops.
    + by apply get_type_adjacency_list_no_hops.
Qed.

(** An unknown second head at depth 2 on the movie schema. *)
Lemma unknown_head_raises_witness :
  (∃ e, get_sampling_tree movie_schema 5 ["Person"; "Ghost"] 2 = Raise e) ∧
  (∃ e, get_type_adjacency_list movie_schema 2 ["Person"; "Ghost"] 2 = Raise e).
Proof.
  assert ("Ghost" ∈ ["Person"; "Ghost"]) as Hin by (right; left).
  assert (schema movie_schema !! "Ghost" = None) as Hno by reflexivity.
  destruct (unknown_head_raises movie_schema 5 2 _ 2 _ Hin Hno) as [Hpos _].
  destruct Hpos as [Htree Hadj]; [lia|].
  split; [exact Htree|]. apply Hadj. simpl. lia.
Defined.

(** ** The adjacency list points forward *)

Lemma visit_edge_type_Ok n_hops ninx lvl clist q et nt cs :
  clist !! ninx = Some (nt, cs) →
  visit_edge_type n_hops ninx lvl (clist, q) et =
  Ok (<[ninx := (nt, cs ++ [length clist])]> clist ++ [(n2 et, [])],
      q ++ if decide (n_hops > Z.of_nat lvl + 1)
           then [(n2 et, length clist, S lvl)] else []).
Proof.
  intros Hninx. unfold visit_edge_type, append_child.
  rewrite (lookup_app_l_Some _ _ _ _ Hninx). cbn.
  rewrite insert_app_l by (by eapply lookup_lt_Some).
  case_decide; by rewrite ?app_nil_r.
Qed.

(** The whole [for et in ets] loop in one step. *)
Lemma foldlM_visit_edge_type_Ok n_hops ninx lvl ets clist q nt cs :
  clist !! ninx = Some (nt, cs) →
  foldlM (visit_edge_type n_hops ninx lvl) (clist, q) ets =
  Ok (<[ninx := (nt, cs ++ seq (length clist) (length ets))]> clist
        ++ ((λ et, (n2 et, [])) <$> ets),
      q ++ if decide (n_hops > Z.of_nat lvl + 1)
           then imap (λ k et, (n2 et, (length clist + k)%nat, S lvl)) ets
           else []).
Proof.
  revert clist q cs. induction ets as [|et ets IH]; intros clist q cs Hninx.
  { simpl. rewrite !app_nil_r, list_insert_id by done.
    by case_decide; rewrite app_nil_r. }
  cbn [foldlM]. rewrite (visit_edge_type_Ok _ _ _ _ _ _ nt cs) by done. cbn.
  assert (ninx < length clist)%nat as Hlt by (by eapply lookup_lt_Some).
  rewrite (IH _ _ (cs ++ [length clist])).
  2:{ rewrite lookup_app_l by (by rewrite length_insert).
      by rewrite list_lookup_insert_eq. }
  rewrite length_app, length_insert. simpl.
  rewrite insert_app_l by (by rewrite length_insert).
  rewrite list_insert_insert_eq, <-!(assoc_L (++)). simpl.
  rewrite Nat.add_1_r. do 2 f_equal.
  case_decide; [|done]. rewrite Nat.add_0_r. simpl. do 2 f_equal.
  apply imap_ext. intros; simpl. do 2 f_equal. lia.
Qed.

Lemma visit_edge_type_forward n_hops ninx lvl clist q et clist' q' :
  forward clist → queue_in_range clist q → (ninx < length clist)%nat →
  visit_edge_type n_hops ninx lvl (clist, q) et = Ok (clist', q') →
  forward clist' ∧ queue_in_range clist' q' ∧
  length clist' = S (length clist).
Proof.
  intros Hfwd Hq Hlt. destruct (lookup_lt_is_Some_2 clist ninx Hlt) as [[nt cs] Hninx].
  rewrite (visit_edge_type_Ok _ _ _ _ _ _ nt cs) by done. intros [= <- <-].
  assert (length (<[ninx:=(nt, cs ++ [length clist])]> clist ++ [(n2 et, [])])
          = S (length clist)) as Hlen.
  { rewrite length_app, length_insert. simpl. lia. }
  split_and!; [| |done].
  - intros i nt' cs' c Hi Hc. rewrite Hlen.
    apply lookup_app_Some in Hi as [Hi|[Hge Hi]].
    + destruct (decide (i = ninx)) as [->|Hne].
      * rewrite list_lookup_insert_eq in Hi by done. simplify_eq.
        apply elem_of_app in Hc as [Hc|Hc].
        -- specialize (Hfwd _ _ _ _ Hninx Hc). lia.
        -- apply list_elem_of_singleton in Hc as ->. lia.
      * rewrite list_lookup_insert_ne in Hi by done.
        specialize (Hfwd _ _ _ _ Hi Hc). lia.
    + apply list_lookup_singleton_Some in Hi as [_ ?]. simplify_eq.
      by apply elem_of_nil in Hc.
  - intros nt' ninx' lvl' Hin. rewrite Hlen.
    apply elem_of_app in Hin as [Hin|Hin].
    + specialize (Hq _ _ _ Hin). lia.
    + case_decide; [|by apply elem_of_nil in Hin].
      apply list_elem_of_singleton in Hin. simplify_eq. lia.
Qed.

Lemma foldlM_visit_edge_type_forward n_hops ninx lvl ets clist q clist' q' :
  forward clist → queue_in_range clist q → (ninx < length clist)%nat →
  foldlM (visit_edge_type n_hops ninx lvl) (clist, q) ets = Ok (clist', q') →
  forward clist' ∧ queue_in_range clist' q'.
Proof.
  revert clist q. induction ets as [|et ets IH]; intros clist q Hfwd Hq Hlt.
  { by intros [= <- <-]. }
  cbn [foldlM].
  destruct (visit_edge_type n_hops ninx lvl (clist, q) et)
    as [[clist1 q1]| |] eqn:Hvisit; [|done..].
  destruct (visit_edge_type_forward _ _ _ _ _ _ _ _ Hfwd Hq Hlt Hvisit)
    as (Hfwd1 & Hq1 & Hlen1).
  cbn. apply IH; [done|done|lia].
Qed.

Lemma process_queue_forward sch n_hops fuel clist q r :
  forward clist → queue_in_range clist q →
  process_queue sch n_hops fuel clist q = Ok r → forward r.
Proof.
  revert clist q. induction fuel as [|fuel IH]; intros clist q Hfwd Hq.
  { destruct q as [|[[??]?]]; [by intros [= <-]|done]. }
  destruct q as [|[[nt ninx] lvl] q]; [by intros [= <-]|].
  simpl. destruct (getitem sch nt) as [ets| |]; [|done..]. cbn.
  destruct (foldlM _ _ ets) as [[clist' q']| |] eqn:Hfold; [|done..]. cbn.
  apply foldlM_visit_edge_type_forward in Hfold as [??]; [by apply IH|done|..].
  - intros nt' ninx' lvl' ?. apply (Hq nt' ninx' lvl'). by right.
  - apply (Hq nt ninx lvl). by left.
Qed.

(** ** The adjacency loop terminates *)

Lemma branching_bound sch t ets :
  sch !! t = Some ets → (length ets ≤ branching sch)%nat.
Proof.
  intros Ht. apply max_list_elem_of_le.
  apply list_elem_of_fmap. exists (t, ets). split; [done|].
  by apply elem_of_map_to_list.
Qed.

Lemma sum_list_with_imap_const {A B} (g : B → nat) (f : nat → A → B)
    (l : list A) (w : nat) :
  (∀ k x, g (f k x) = w) → sum_list_with g (imap f l) = (length l * w)%nat.
Proof.
  intros Hw. revert f Hw. induction l as [|x l IH]; intros f Hw; [done|].
  rewrite imap_cons. simpl. rewrite Hw, IH; [done|]. intros; apply Hw.
Qed.

Lemma process_queue_terminates sch n_hops b :
  schema_closed sch →
  (∀ t ets, sch !! t = Some ets → (length ets ≤ b)%nat) →
  ∀ fuel clist q,
    queue_ready sch n_hops clist q →
    (sum_list_with (item_weight b n_hops) q ≤ fuel)%nat →
    ∃ r, process_queue sch n_hops fuel clist q = Ok r.
Proof.
  intros Hclosed Hb fuel.
  induction fuel as [|fuel IH]; intros clist [|[[nt ninx] lvl] q] Hq Hw.
  - by eexists.
  - destruct (Hq nt ninx lvl) as (_ & _ & Hlvl); [by left|].
    simpl in Hw. unfold item_weight in Hw. simpl in Hw.
    replace (Z.to_nat (n_hops - Z.of_nat lvl))
      with (S (Z.to_nat (n_hops - Z.of_nat (S lvl)))) in Hw by lia.
    simpl in Hw. lia.
  - by eexists.
  - destruct (Hq nt ninx lvl) as (Hlt & [ets Hets] & Hlvl); [by left|].
    destruct (lookup_lt_is_Some_2 clist ninx Hlt) as [[nt' cs] Hninx].
    simpl. unfold getitem. rewrite Hets. cbn.
    rewrite (foldlM_visit_edge_type_Ok _ _ _ _ _ _ nt' cs) by done. cbn.
    apply IH.
    + intros nt1 ninx1 lvl1 Hin.
      rewrite length_app, length_insert, length_fmap.
      apply elem_of_app in Hin as [Hin|Hin].
      * destruct (Hq nt1 ninx1 lvl1) as (? & ? & ?); [by right|].
        split_and!; [lia|done..].
      * case_decide; [|by apply elem_of_nil in Hin].
        apply elem_of_lookup_imap in Hin as (k & et & ? & Hk). simplify_eq.
        split_and!.
        -- apply lookup_lt_Some in Hk. lia.
        -- eapply Hclosed; [done|]. by eapply list_elem_of_lookup_2.
        -- lia.
    + rewrite sum_list_with_app. simpl in Hw.
      unfold item_weight at 1 in Hw. simpl in Hw.
      replace (Z.to_nat (n_hops - Z.of_nat lvl))
        with (S (Z.to_nat (n_hops - Z.of_nat (S lvl)))) in Hw by lia.
      simpl in Hw. specialize (Hb _ _ Hets).
      case_decide; simpl; [|lia].
      rewrite (sum_list_with_imap_const _ _ _
                 (weight b (Z.to_nat (n_hops - Z.of_nat (S lvl))))) by done.
      nia.
Qed.

Lemma get_type_adjacency_list_terminates gs heads n_hops fuel :
  schema_closed (schema gs) →
  (∀ hn, hn ∈ heads → is_Some (schema gs !! hn)) →
  (enough_fuel (schema gs) heads n_hops ≤ fuel)%nat →
  ∃ clist, get_type_adjacency_list gs fuel heads n_hops = Ok clist.
Proof.
  intros Hclosed Hheads Hfuel. rewrite get_type_adjacency_list_unfold.
  apply (process_queue_terminates _ _ (branching (schema gs)));
    [done|apply branching_bound|..].
  - intros nt ninx lvl Hin. case_decide; [|by apply elem_of_nil in Hin].
    apply elem_of_lookup_imap in Hin as (k & hn & ? & Hk). simplify_eq.
    rewrite length_fmap. split_and!.
    + by eapply lookup_lt_Some.
    + apply Hheads. by eapply list_elem_of_lookup_2.
    + lia.
  - case_decide; simpl; [|lia].
    rewrite (sum_list_with_imap_const _ _ _
               (weight (branching (schema gs)) (Z.to_nat n_hops))); [done|].
    intros. unfold item_weight. simpl. f_equal. lia.
Qed.

(** More fuel does not change a result. *)
Lemma process_queue_fuel_mono sch n_hops fuel fuel' clist q r :
  (fuel ≤ fuel')%nat →
  process_queue sch n_hops fuel clist q = Ok r →
  process_queue sch n_hops fuel' clist q = Ok r.
Proof.
  revert fuel' clist q. induction fuel as [|fuel IH]; intros fuel' clist q Hle.
  { destruct q as [|[[??]?]]; [|done]. by destruct fuel'. }
  destruct fuel' as [|fuel']; [lia|].
  destruct q as [|[[nt ninx] lvl] q]; [done|].
  simpl. destruct (getitem sch nt) as [ets| |]; [|done..]. cbn.
  destruct (foldlM _ _ ets) as [[clist' q']| |]; [|done..]. cbn.
  apply IH. lia.
Qed.

(** C9: in every list [get_type_adjacency_list] returns, each child index
    recorded for the entry at index [i] is greater than [i] and inside the
    list; one pass of the loop body, which appends the child entry before
    recording its index, keeps it so; and on a closed schema that knows
    the head types the list is returned once the fuel suffices. *)
Theorem adjacency_children_point_forward gs heads n_hops :
  0 ≤ n_hops →
  (∀ fuel clist,
     get_type_adjacency_list gs fuel heads n_hops = Ok clist →
     ∀ i nt cs c, clist !! i = Some (nt, cs) → c ∈ cs →
       (i < c < length clist)%nat) ∧
  (∀ ninx lvl clist q et clist' q',
     forward clist → queue_in_range clist q → (ninx < length clist)%nat →
     visit_edge_type n_hops ninx lvl (clist, q) et = Ok (clist', q') →
     forward clist') ∧
  (schema_closed (schema gs) →
   (∀ hn, hn ∈ heads → is_Some (schema gs !! hn)) →
   ∀ fuel, (enough_fuel (schema gs) heads n_hops ≤ fuel)%nat →
     ∃ clist, get_type_adjacency_list gs fuel heads n_hops = Ok clist).
Proof.
  intros Hn. split_and!.
  - intros fuel clist. rewrite get_type_adjacency_list_unfold. intros Hrun.
    eapply process_queue_forward; [| |done].
    + intros i nt cs c Hi Hc. apply list_lookup_fmap_Some in Hi as (? & ? & ?).
      simplify_eq. by apply elem_of_nil in Hc.
    + intros nt ninx lvl Hin. case_decide; [|by apply elem_of_nil in Hin].
      apply elem_of_lookup_imap in Hin as (k & hn & ? & Hk). simplify_eq.
      rewrite length_fmap. by eapply lookup_lt_Some.
  - intros ninx lvl clist q et clist' q' Hfwd Hq Hlt Hvisit.
    by destruct (visit_edge_type_forward _ _ _ _ _ _ _ _ Hfwd Hq Hlt Hvisit).
  - intros. by apply get_type_adjacency_list_terminates.
Qed.

Lemma movie_schema_closed : schema_closed (schema movie_schema).
Proof.
  intros t ets et Ht Het. simpl in *.
  apply lookup_insert_Some in Ht as [[<- <-]|[_ Ht]].
  { apply list_elem_of_singleton in Het as ->. by eexists. }
  apply lookup_insert_Some in Ht as [[<- <-]|[_ Ht]]; [|done].
  apply list_elem_of_singleton in Het as ->. by eexists.
Qed.

(** The two-hop adjacency list of the movie schema. *)
Lemma adjacency_children_point_forward_witness :
  forward [("Person", [2%nat]); ("Movie", [3%nat]); ("Movie", [4%nat]);
           ("Person", [5%nat]); ("Person", []); ("Movie", [])] ∧
  ∃ clist, get_type_adjacency_list movie_schema 4 ["Person"; "Movie"] 2 = Ok clist.
Proof.
  assert (0 ≤ 2) as Hn by lia.
  destruct (adjacency_children_point_forward movie_schema ["Person"; "Movie"] 2 Hn)
    as (Hfwd & _ & Hterm).
  split.
  - refine (Hfwd 4%nat _ _). vm_compute. reflexivity.
  - apply Hterm.
    + apply movie_schema_closed.
    + intros hn Hhn. apply elem_of_cons in Hhn as [->|Hhn]; [by eexists|].
      apply list_elem_of_singleton in Hhn as ->. by eexists.
    + vm_compute. lia.
Defined.

(** ** Type paths of the two sampling plans *)

Lemma Forall2_bind_eq {A B C} (f : A → list C) (g : B → list C) l k :
  Forall2 (λ x y, f x = g y) l k → l ≫= f = k ≫= g.
Proof.
  induction 1 as [|x y l k Hxy _ IH]; [done|].
  by rewrite !bind_cons, Hxy, IH.
Qed.

Lemma fmap_snd_enumerate {A} (l : list A) : snd <$> enumerate l = l.
Proof.
  unfold enumerate. rewrite fmap_imap.
  rewrite (imap_ext _ (const id)) by done. by rewrite imap_const, list_fmap_id.
Qed.

Lemma get_neighbor_types_paths sch limit :
  ∀ d node_type key ch,
    get_neighbor_types sch limit node_type (Z.of_nat d) key = Ok ch →
    match ch with
    | [] => [[node_type]]
    | _ :: _ => cons node_type <$> (ch ≫= tnode_paths)
    end = expand_paths sch d node_type.
Proof.
  induction limit as [|limit IH]; intros d node_type key ch; [done|].
  simpl. case_decide as Hd.
  { intros [= <-]. by destruct d. }
  destruct d as [|d]; [done|]. unfold getitem.
  destruct (sch !! node_type) as [ets|] eqn:Hets; [|done]. cbn.
  intros Hch%mapM_Ok_Forall2. simpl. rewrite Hets. simpl.
  assert (ch ≫= tnode_paths = ets ≫= λ et, expand_paths sch d (n2 et)) as Hbind.
  { trans ((snd <$> enumerate ets) ≫= λ et, expand_paths sch d (n2 et));
      [|by rewrite fmap_snd_enumerate].
    rewrite list_fmap_bind. symmetry. apply Forall2_bind_eq.
    eapply Forall2_impl; [done|]. intros [ii et] c Hc. simpl in *.
    unfold mbind, outcome_bind in Hc.
    destruct (get_neighbor_types _ _ _ _ _) as [ch'| |] eqn:Hrec; [|done..].
    injection Hc as <-. replace (Z.of_nat (S d) - 1) with (Z.of_nat d) in Hrec by lia.
    apply IH in Hrec. by rewrite <-Hrec. }
  apply Forall2_length in Hch. unfold enumerate in Hch. rewrite length_imap in Hch.
  rewrite Hbind. by destruct ch, ets.
Qed.

Lemma get_sampling_tree_paths gs limit heads d tree :
  get_sampling_tree gs limit heads (Z.of_nat d) = Ok tree →
  tree_paths tree = heads ≫= expand_paths (schema gs) d.
Proof.
  unfold get_sampling_tree, tree_paths. intros Htree%mapM_Ok_Forall2.
  trans ((snd <$> enumerate heads) ≫= expand_paths (schema gs) d);
    [|by rewrite fmap_snd_enumerate].
  rewrite list_fmap_bind. symmetry. apply Forall2_bind_eq.
  eapply Forall2_impl; [done|]. intros [jj hn] r Hr. simpl in *.
  unfold mbind, outcome_bind in Hr.
  destruct (get_neighbor_types _ _ _ _ _) as [ch| |] eqn:Hrec; [|done..].
  injection Hr as <-. apply get_neighbor_types_paths in Hrec.
  by rewrite <-Hrec.
Qed.

(** *** The loop invariant of [get_type_adjacency_list] *)

Lemma imap_queue_indices {A} (f : A → label) (L lvl : nat) (ets : list A) :
  (imap (λ k et, (f et, (L + k)%nat, lvl)) ets).*1.*2 = seq L (length ets).
Proof.
  revert L. induction ets as [|et ets IH]; intros L; [done|].
  rewrite imap_cons. simpl. rewrite Nat.add_0_r. f_equal.
  rewrite <-IH. do 2 f_equal. apply imap_ext. intros; simpl. do 2 f_equal. lia.
Qed.

Lemma imap_head_indices (heads : list label) :
  (imap (λ i hn, (hn, i, 0%nat)) heads).*1.*2 = seq 0 (length heads).
Proof. exact (imap_queue_indices id 0 0 heads). Qed.

Lemma queue_inv_init sch n_hops heads :
  0 ≤ n_hops →
  queue_inv sch n_hops heads ((λ hn, (hn, [])) <$> heads)
    (replicate (length heads) 0%nat)
    (if decide (n_hops > 0) then imap (λ i hn, (hn, i, 0%nat)) heads else []).
Proof.
  intros Hn. split_and!.
  - by rewrite length_replicate, length_fmap.
  - case_decide; [|constructor].
    rewrite imap_head_indices. apply NoDup_seq.
  - intros nt ninx lvl Hin. case_decide; [|by apply elem_of_nil in Hin].
    apply elem_of_lookup_imap in Hin as (k & hn & ? & Hk). simplify_eq.
    rewrite list_lookup_fmap, Hk. split_and!; [done| |lia].
    apply lookup_replicate_2. by eapply lookup_lt_Some.
  - intros i Hi Hnotin nt cs l Hlook Hl. rewrite length_fmap in Hi.
    apply lookup_replicate in Hl as [-> _].
    apply list_lookup_fmap_Some in Hlook as (hn & ? & ?). simplify_eq.
    case_decide.
    + destruct Hnotin. rewrite imap_head_indices.
      apply elem_of_seq. lia.
    + right. split; [lia|done].
  - intros j hn Hj. rewrite list_lookup_fmap, Hj. split; [done|].
    apply lookup_replicate_2. by eapply lookup_lt_Some.
Qed.

Lemma queue_inv_step sch n_hops heads clist lv nt ninx lvl q ets :
  queue_inv sch n_hops heads clist lv ((nt, ninx, lvl) :: q) →
  sch !! nt = Some ets →
  queue_inv sch n_hops heads
    (<[ninx := (nt, [] ++ seq (length clist) (length ets))]> clist
       ++ ((λ et, (n2 et, [])) <$> ets))
    (lv ++ replicate (length ets) (S lvl))
    (q ++ if decide (n_hops > Z.of_nat lvl + 1)
          then imap (λ k et, (n2 et, (length clist + k)%nat, S lvl)) ets
          else []).
Proof.
  intros (Hlen & Hnodup & Hq & Hdone & Hheads) Hets. simpl.
  destruct (Hq nt ninx lvl) as (Hninx & Hlv & Hlvl); [by left|].
  assert (ninx < length clist)%nat as Hlt by (by eapply lookup_lt_Some).
  apply NoDup_cons in Hnodup as [Hfresh Hnodup]. simpl in Hfresh.
  assert (∀ i, i ∈ q.*1.*2 → (i < length clist)%nat ∧ i ≠ ninx) as Hqi.
  { intros i Hi. apply list_elem_of_fmap in Hi as ([nt1 i1] & -> & Hi).
    apply list_elem_of_fmap in Hi as ([[nt2 i2] l2] & ? & Hi). simplify_eq/=.
    destruct (Hq nt2 i2 l2) as (Hi2 & _ & _); [by right|].
    split; [by eapply lookup_lt_Some|]. intros ->. apply Hfresh.
    apply list_elem_of_fmap. exists (nt2, ninx). split; [done|].
    apply list_elem_of_fmap. by exists (nt2, ninx, l2). }
  assert (∀ c t, fst <$> clist !! c = Some t →
            fst <$> (<[ninx := (nt, seq (length clist) (length ets))]> clist
                       ++ ((λ et, (n2 et, [])) <$> ets)) !! c = Some t) as Hfst.
  { intros c t Hc. destruct (clist !! c) as [[t' cs']|] eqn:Hcl; simplify_eq/=.
    assert (c < length clist)%nat by (by eapply lookup_lt_Some).
    rewrite lookup_app_l by (by rewrite length_insert).
    destruct (decide (c = ninx)) as [->|Hne].
    - rewrite list_lookup_insert_eq by done. by simplify_eq.
    - rewrite list_lookup_insert_ne by done. by rewrite Hcl. }
  assert (∀ c l, lv !! c = Some l →
            (lv ++ replicate (length ets) (S lvl)) !! c = Some l) as Hlv'.
  { intros c l Hc. by apply lookup_app_l_Some. }
  split_and!.
  - rewrite !length_app, length_insert, length_replicate, length_fmap. lia.
  - rewrite !fmap_app. apply NoDup_app. split_and!; [done| |].
    + intros i Hi Hi'. apply Hqi in Hi as [Hi _].
      case_decide; [|by apply elem_of_nil in Hi'].
      rewrite imap_queue_indices in Hi'. apply elem_of_seq in Hi'. lia.
    + case_decide; [|constructor]. rewrite imap_queue_indices. apply NoDup_seq.
  - intros nt1 i1 l1 Hin. apply elem_of_app in Hin as [Hin|Hin].
    + destruct (Hq nt1 i1 l1) as (Hi1 & Hl1 & ?); [by right|].
      destruct (Hqi i1) as [? ?].
      { apply list_elem_of_fmap. exists (nt1, i1). split; [done|].
        apply list_elem_of_fmap. by exists (nt1, i1, l1). }
      split_and!; [|by apply Hlv'|done].
      rewrite lookup_app_l by (by rewrite length_insert).
      by rewrite list_lookup_insert_ne.
    + case_decide; [|by apply elem_of_nil in Hin].
      apply elem_of_lookup_imap in Hin as (k & et & ? & Hk). simplify_eq.
      assert (k < length ets)%nat by (by eapply lookup_lt_Some).
      split_and!; [| |lia].
      * rewrite lookup_app_r by (rewrite length_insert; lia).
        rewrite length_insert, list_lookup_fmap.
        replace (length clist + k - length clist)%nat with k by lia.
        by rewrite Hk.
      * rewrite lookup_app_r by lia. apply lookup_replicate_2. lia.
  - intros i Hi Hnotin nt1 cs1 l1 Hlook Hl1.
    rewrite !fmap_app, not_elem_of_app in Hnotin.
    destruct Hnotin as [Hnq Hnnew].
    apply lookup_app_Some in Hlook as [Hlook|[Hge Hlook]].
    + assert (i < length clist)%nat as HiL.
      { apply lookup_lt_Some in Hlook. by rewrite length_insert in Hlook. }
      rewrite lookup_app_l in Hl1 by lia.
      destruct (decide (i = ninx)) as [->|Hne].
      * rewrite list_lookup_insert_eq in Hlook by done. simplify_eq.
        left. split; [done|]. exists ets. split; [done|].
        apply Forall2_same_length_lookup. split; [by rewrite length_seq|].
        intros k et c Hk Hc. apply lookup_seq in Hc as [-> ?].
        split_and!; [lia| |].
        -- rewrite lookup_app_r by (rewrite length_insert; lia).
           rewrite length_insert, list_lookup_fmap.
           replace (length clist + k - length clist)%nat with k by lia.
           by rewrite Hk.
        -- rewrite lookup_app_r by lia. apply lookup_replicate_2. lia.
      * rewrite list_lookup_insert_ne in Hlook by done.
        assert (i ∉ ((nt, ninx, lvl) :: q).*1.*2) as Hold.
        { simpl. intros [?|?]%elem_of_cons; done. }
        destruct (Hdone i HiL Hold nt1 cs1 l1 Hlook Hl1)
          as [(? & ets1 & ? & Hch)|[? ?]]; [left|by right].
        split; [done|]. exists ets1. split; [done|].
        eapply Forall2_impl; [done|]. intros et c (? & ? & ?).
        split_and!; [done|by apply Hfst|by apply Hlv'].
    + rewrite length_insert in Hge, Hlook.
      apply list_lookup_fmap_Some in Hlook as (et & ? & Hk). simplify_eq.
      assert (i - length clist < length ets)%nat by (by eapply lookup_lt_Some).
      rewrite lookup_app_r in Hl1 by lia.
      apply lookup_replicate in Hl1 as [-> _].
      case_decide.
      * destruct Hnnew. rewrite imap_queue_indices. apply elem_of_seq.
        lia.
      * right. split; [lia|done].
  - intros j hn Hj. destruct (Hheads j hn Hj) as [? ?].
    split; [by apply Hfst|by apply Hlv'].
Qed.

Lemma process_queue_queue_inv sch n_hops heads fuel :
  ∀ clist q lv r,
    queue_inv sch n_hops heads clist lv q →
    process_queue sch n_hops fuel clist q = Ok r →
    ∃ lv', queue_inv sch n_hops heads r lv' [].
Proof.
  induction fuel as [|fuel IH]; intros clist q lv r Hinv.
  { destruct q as [|[[??]?]]; [|done]. intros [= <-]. eauto. }
  destruct q as [|[[nt ninx] lvl] q]; [intros [= <-]; eauto|].
  simpl. unfold getitem. destruct (sch !! nt) as [ets|] eqn:Hets; [|done]. cbn.
  destruct Hinv as (Hlen & Hnodup & Hq & Hrest).
  destruct (Hq nt ninx lvl) as (Hninx & _ & _); [by left|].
  rewrite (foldlM_visit_edge_type_Ok _ _ _ _ _ _ nt []) by done. cbn.
  apply IH with (lv := lv ++ replicate (length ets) (S lvl)).
  by apply queue_inv_step.
Qed.

Lemma adj_paths_from_done sch n_hops clist lv :
  length lv = length clist →
  (∀ i, (i < length clist)%nat → entry_done sch n_hops clist lv i) →
  ∀ fuel i nt cs l,
    clist !! i = Some (nt, cs) → lv !! i = Some l →
    (length clist - i ≤ fuel)%nat →
    adj_paths_from clist fuel i =
    expand_paths sch (Z.to_nat (n_hops - Z.of_nat l)) nt.
Proof.
  intros Hlen Hdone fuel.
  induction fuel as [|fuel IH]; intros i nt cs l Hi Hl Hfuel.
  { apply lookup_lt_Some in Hi. lia. }
  simpl. rewrite Hi.
  destruct (Hdone i (lookup_lt_Some _ _ _ Hi) nt cs l Hi Hl)
    as [(Hlt & ets & Hets & Hch)|[Heq ->]].
  - replace (Z.to_nat (n_hops - Z.of_nat l))
      with (S (Z.to_nat (n_hops - Z.of_nat (S l)))) by lia.
    simpl. rewrite Hets. simpl.
    assert (cs ≫= adj_paths_from clist fuel =
            ets ≫= λ et, expand_paths sch (Z.to_nat (n_hops - Z.of_nat (S l)))
                           (n2 et)) as ->.
    { symmetry. apply Forall2_bind_eq. eapply Forall2_impl; [done|].
      intros et c (Hic & Hc & Hlc). simpl in *.
      destruct (clist !! c) as [[t cs']|] eqn:Hcl; simplify_eq/=.
      symmetry. eapply IH; [done..|lia]. }
    apply Forall2_length in Hch. by destruct cs, ets.
  - by replace (Z.to_nat (n_hops - Z.of_nat l)) with 0%nat by lia.
Qed.

Lemma get_type_adjacency_list_paths gs fuel heads n_hops clist :
  0 ≤ n_hops →
  get_type_adjacency_list gs fuel heads n_hops = Ok clist →
  adj_paths (length heads) clist =
  heads ≫= expand_paths (schema gs) (Z.to_nat n_hops).
Proof.
  intros Hn. rewrite get_type_adjacency_list_unfold. intros Hrun.
  destruct (process_queue_queue_inv _ _ heads _ _ _ _ _
              (queue_inv_init (schema gs) n_hops heads Hn) Hrun)
    as (lv & Hlen & _ & _ & Hdone & Hheads).
  unfold adj_paths. apply Forall2_bind_eq.
  apply Forall2_same_length_lookup. split; [by rewrite length_seq|].
  intros j j' hn Hj Hhn. apply lookup_seq in Hj as [-> _].
  destruct (Hheads _ _ Hhn) as [Hty Hlv].
  destruct (clist !! j) as [[t cs]|] eqn:Hcl; simplify_eq/=.
  rewrite (adj_paths_from_done (schema gs) n_hops clist lv Hlen)
    with (nt := hn) (cs := cs) (l := 0%nat);
    [by rewrite Z.sub_0_r| |done|done|lia].
  intros i Hi. apply Hdone; [done|]. by intros ?%elem_of_nil.
Qed.

Lemma mapM_is_Ok {A B} (f : A → outcome B) (l : list A) :
  (∀ x, x ∈ l → ∃ y, f x = Ok y) → ∃ k, mapM f l = Ok k.
Proof.
  induction l as [|x l IH]; intros Hl; [by eexists|].
  rewrite mapM_cons_eq. destruct (Hl x) as [y ->]; [by left|].
  destruct IH as [k ->]; [|by eexists]. intros z ?. apply Hl. by right.
Qed.

Lemma get_neighbor_types_terminates sch :
  schema_closed sch →
  ∀ limit level node_type key,
    0 ≤ level < Z.of_nat limit → is_Some (sch !! node_type) →
    ∃ ch, get_neighbor_types sch limit node_type level key = Ok ch.
Proof.
  intros Hclosed limit.
  induction limit as [|limit IH]; intros level node_type key Hlevel [ets Hets];
    [lia|].
  simpl. case_decide; [by eexists|]. unfold getitem. rewrite Hets. cbn.
  apply mapM_is_Ok. intros [ii et] Hin%elem_of_enumerate.
  destruct (IH (level - 1) (n2 et) (gen_key key [ii] +:+ "_")) as [ch ->];
    [lia| |by eexists].
  eapply Hclosed; [done|]. by eapply list_elem_of_lookup_2.
Qed.

Lemma get_sampling_tree_terminates gs limit heads n_hops :
  schema_closed (schema gs) →
  (∀ hn, hn ∈ heads → is_Some (schema gs !! hn)) →
  0 ≤ n_hops < Z.of_nat limit →
  ∃ tree, get_sampling_tree gs limit heads n_hops = Ok tree.
Proof.
  intros Hclosed Hheads Hn. apply mapM_is_Ok.
  intros [jj hn] Hin%elem_of_enumerate.
  destruct (get_neighbor_types_terminates _ Hclosed limit n_hops hn
              (gen_key "" [jj] +:+ "#")) as [ch ->]; [done| |by eexists].
  apply Hheads. by eapply list_elem_of_lookup_2.
Qed.

(** C7: for the same schema, head types and [n_hops >= 0], whenever both
    generators return, the sampling tree and the adjacency list encode the
    same type paths from roots to leaves (as multisets; in fact in the
    same order); and on a closed schema that knows the head types both do
    return, given a call stack deeper than [n_hops] and enough loop
    iterations. *)
Theorem tree_and_adjacency_list_same_paths gs heads n_hops :
  0 ≤ n_hops →
  (∀ limit fuel tree clist,
     get_sampling_tree gs limit heads n_hops = Ok tree →
     get_type_adjacency_list gs fuel heads n_hops = Ok clist →
     tree_paths tree ≡ₚ adj_paths (length heads) clist) ∧
  (schema_closed (schema gs) →
   (∀ hn, hn ∈ heads → is_Some (schema gs !! hn)) →
   ∀ limit fuel,
     n_hops < Z.of_nat limit →
     (enough_fuel (schema gs) heads n_hops ≤ fuel)%nat →
     ∃ tree clist,
       get_sampling_tree gs limit heads n_hops = Ok tree ∧
       get_type_adjacency_list gs fuel heads n_hops = Ok clist).
Proof.
  intros Hn. split.
  - intros limit fuel tree clist Htree Hclist.
    rewrite <-(Z2Nat.id n_hops) in Htree by done.
    apply get_sampling_tree_paths in Htree.
    apply get_type_adjacency_list_paths in Hclist; [|done].
    by rewrite Htree, Hclist.
  - intros Hclosed Hheads limit fuel Hlimit Hfuel.
    destruct (get_sampling_tree_terminates gs limit heads n_hops)
      as [tree Htree]; [done..|].
    destruct (get_type_adjacency_list_terminates gs heads n_hops fuel)
      as [clist Hclist]; [done..|].
    eauto.
Qed.

(** The two-hop plans of the movie schema from "Person". *)
Lemma tree_and_adjacency_list_same_paths_witness :
  tree_paths
    [("0", "Person",
      [Tnode "0#0" (mkEdgeType "Person" "rates" "Movie")
         [Tnode "0#0_0" (mkEdgeType "Movie" "rates" "Person") []]])]
  ≡ₚ adj_paths 1 [("Person", [1%nat]); ("Movie", [2%nat]); ("Person", [])].
Proof.
  assert (0 ≤ 2) as Hn by lia.
  refine (proj1 (tree_and_adjacency_list_same_paths movie_schema ["Person"] 2 Hn)
            3%nat 2%nat _ _ _ _); vm_compute; reflexivity.
Defined.

(** ** [sorted] *)

Section sorted.
Context `{Lexico A, !TrichotomyT (@lexico A _), !StrictOrder (@lexico A _)}.
Implicit Types l : list A.

Lemma lexico_le_spec (x y : A) : lexico_le x y ↔ lexico x y ∨ x = y.
Proof.
  unfold lexico_le, lexico_leb.
  destruct (trichotomyT lexico x y) as [[?|?]|Hyx]; simpl; [naive_solver..|].
  split; [done|]. intros [Hxy| ->].
  - by destruct (irreflexivity lexico x); trans y.
  - by destruct (irreflexivity lexico y).
Qed.

Global Instance lexico_le_refl : Reflexive (@lexico_le A _ _).
Proof. intros x. apply lexico_le_spec. by right. Qed.

Global Instance lexico_le_trans : Transitive (@lexico_le A _ _).
Proof.
  intros x y z. rewrite !lexico_le_spec. intros [?| ->] [?| ->]; eauto.
  left. by trans y.
Qed.

Global Instance lexico_le_total : Total (@lexico_le A _ _).
Proof.
  intros x y. rewrite !lexico_le_spec.
  destruct (trichotomyT lexico x y) as [[?|?]|?]; eauto.
Qed.

Lemma lexico_le_antisym (x y : A) : lexico_le x y → lexico_le y x → x = y.
Proof.
  rewrite !lexico_le_spec. intros [Hxy| ->] [Hyx| ?]; try done.
  by destruct (irreflexivity lexico x); trans y.
Qed.

Lemma sorted_Permutation l : sorted l ≡ₚ l.
Proof. apply merge_sort_Permutation. Qed.

Lemma StronglySorted_sorted l : StronglySorted lexico_le (sorted l).
Proof. apply (StronglySorted_merge_sort _). Qed.

Lemma elem_of_sorted l x : x ∈ sorted l ↔ x ∈ l.
Proof. by rewrite sorted_Permutation. Qed.

Lemma elem_of_sorted_1 l x : x ∈ sorted l → x ∈ l.
Proof. apply elem_of_sorted. Qed.

Lemma NoDup_sorted l : NoDup l → NoDup (sorted l).
Proof. by rewrite sorted_Permutation. Qed.

(** Two sorted lists with the same elements are the same list. *)
Lemma StronglySorted_lexico_le_unique l1 l2 :
  StronglySorted lexico_le l1 → StronglySorted lexico_le l2 →
  l1 ≡ₚ l2 → l1 = l2.
Proof.
  apply StronglySorted_unique_strong. intros. by apply lexico_le_antisym.
Qed.

Lemma StronglySorted_filter (R : relation A) (P : A → Prop)
    `{∀ x, Decision (P x)} l :
  StronglySorted R l → StronglySorted R (filter P l).
Proof.
  induction 1 as [|x l _ IH Hx]; [constructor|].
  rewrite filter_cons. case_decide; [|done].
  constructor; [done|]. apply Forall_forall. intros y [_ Hy]%list_elem_of_filter.
  rewrite Forall_forall in Hx. by apply Hx.
Qed.

Lemma StronglySorted_lookup_le (R : relation A) `{!Reflexive R} l i j x y :
  StronglySorted R l → l !! i = Some x → l !! j = Some y → (i ≤ j)%nat →
  R x y.
Proof.
  intros Hl Hi Hj Hij. destruct (decide (i = j)) as [->|Hne].
  { by simplify_eq. }
  rewrite <-(take_drop j l) in Hl.
  eapply StronglySorted_app_1_elem_of; [done| |].
  - apply elem_of_take. exists i. split; [done|lia].
  - apply list_elem_of_lookup. exists 0%nat.
    by rewrite lookup_drop, Nat.add_0_r.
Qed.
End sorted.

(** ** The [schema] comprehension filters [edge_types] *)

Lemma list_index_elem_of `{EqDecision A} (l : list A) (x : A) :
  x ∈ l →
  list_index l x = Ok (Z.of_nat (index_of l x)) ∧ l !! index_of l x = Some x.
Proof.
  intros Hx. unfold list_index, index_of.
  destruct (list_find_elem_of (λ y, y = x) l x Hx eq_refl) as [[i y] Hfind].
  rewrite Hfind. simpl. split; [done|].
  by apply list_find_Some in Hfind as (? & -> & _).
Qed.

Lemma list_index_not_elem_of `{EqDecision A} (l : list A) (x : A) :
  x ∉ l → list_index l x = Raise ValueError.
Proof.
  intros Hx. unfold list_index.
  destruct (list_find _ l) as [[i y]|] eqn:Hfind; [|done].
  apply list_find_Some in Hfind as (Hi & -> & _).
  destruct Hx. by eapply list_elem_of_lookup_2.
Qed.

Lemma list_getitem_lookup {A} (l : list A) (i : nat) (x : A) :
  l !! i = Some x → list_getitem l (Z.of_nat i) = Ok x.
Proof.
  intros Hi. unfold list_getitem. rewrite decide_True by lia.
  by rewrite Nat2Z.id, Hi.
Qed.

Lemma mapM_Ok_fmap {A B} (f : A → outcome B) (h : A → B) (l : list A) :
  (∀ x, x ∈ l → f x = Ok (h x)) → mapM f l = Ok (h <$> l).
Proof.
  intros Hl. apply mapM_Ok_Forall2, Forall2_fmap_r, Forall_Forall2_diag.
  by apply Forall_forall.
Qed.

Lemma StronglySorted_fmap_in {A B} (R1 : relation A) (R2 : relation B)
    (f : A → B) (l : list A) :
  (∀ x y, x ∈ l → y ∈ l → R1 x y → R2 (f x) (f y)) →
  StronglySorted R1 l → StronglySorted R2 (f <$> l).
Proof.
  intros Hf Hl. induction Hl as [|x l _ IH Hx]; [constructor|].
  rewrite fmap_cons. constructor.
  - apply IH. intros y z ??. apply Hf; by right.
  - apply Forall_fmap, Forall_forall. intros y Hy. simpl.
    rewrite Forall_forall in Hx. apply Hf; [by left|by right|by apply Hx].
Qed.

Lemma schema_entry_filter (edge_types : list EdgeType) (node_data : gset EdgeType) :
  NoDup edge_types → StronglySorted lexico_le edge_types →
  (∀ et, et ∈ node_data → et ∈ edge_types) →
  schema_entry edge_types node_data =
  Ok (filter (λ et, et ∈ node_data) edge_types).
Proof.
  intros Hnodup Hsorted Hsub. unfold schema_entry.
  set (h := λ et, Z.of_nat (index_of edge_types et)).
  set (g := λ i : Z, default (mkEdgeType "" "" "") (edge_types !! Z.to_nat i)).
  assert (∀ et, et ∈ node_data → edge_types !! Z.to_nat (h et) = Some et) as Hh.
  { intros et Het. unfold h. rewrite Nat2Z.id.
    by apply list_index_elem_of, Hsub. }
  rewrite (mapM_Ok_fmap _ h).
  2:{ intros et Het%elem_of_elements. by apply list_index_elem_of, Hsub. }
  cbn.
  rewrite (mapM_Ok_fmap _ g).
  2:{ intros i Hi%elem_of_sorted_1. apply list_elem_of_fmap in Hi as (et & -> & Het).
      apply elem_of_elements in Het. unfold g. rewrite (Hh et Het). simpl.
      unfold h. apply list_getitem_lookup.
      by apply list_index_elem_of, Hsub. }
  f_equal. apply StronglySorted_lexico_le_unique.
  - eapply StronglySorted_fmap_in; [|apply StronglySorted_sorted].
    intros i j Hi%elem_of_sorted_1 Hj%elem_of_sorted_1 Hij.
    apply list_elem_of_fmap in Hi as (x & -> & Hx%elem_of_elements).
    apply list_elem_of_fmap in Hj as (y & -> & Hy%elem_of_elements).
    unfold g. rewrite (Hh x Hx), (Hh y Hy). simpl.
    eapply (StronglySorted_lookup_le lexico_le); [done|by apply Hh..|].
    apply lexico_le_spec in Hij. unfold lexico, Z_lexico in Hij. lia.
  - by apply StronglySorted_filter.
  - rewrite sorted_Permutation, <-list_fmap_compose.
    assert (g ∘ h <$> elements node_data = id <$> elements node_data) as ->.
    { apply list_fmap_ext. intros i et Het. simpl. unfold g.
      rewrite (Hh et); [done|].
      apply elem_of_elements. by eapply list_elem_of_lookup_2. }
    rewrite list_fmap_id. apply NoDup_Permutation.
    + apply NoDup_elements.
    + by apply NoDup_filter.
    + intros et. rewrite elem_of_elements, list_elem_of_filter.
      split; [intros ?; split; [done|by apply Hsub]|by intros [? _]].
Qed.

(** ** What [create_graph_schema] builds *)

Lemma dict_comprehension_fmap `{Countable K} {V W} (f : K → V → outcome W)
    (h : V → W) (d : gmap K V) :
  (∀ k v, d !! k = Some v → f k v = Ok (h v)) →
  dict_comprehension f d = Ok (h <$> d).
Proof.
  intros Hf. unfold dict_comprehension.
  rewrite (mapM_Ok_fmap _ (prod_map id h)).
  - cbn. f_equal. by rewrite list_to_map_fmap, list_to_map_to_list.
  - intros [k v] Hkv%elem_of_map_to_list. by rewrite (Hf k v).
Qed.

Lemma lookup_buckets {V} (v : V) (l : list label) (t : label) :
  (list_to_map ((λ nt, (nt, v)) <$> l) : gmap label V) !! t =
  if decide (t ∈ l) then Some v else None.
Proof.
  induction l as [|x l IH]; [by rewrite decide_False by apply not_elem_of_nil|].
  rewrite fmap_cons, list_to_map_cons, lookup_insert.
  destruct (decide (x = t)) as [->|Hne].
  - by rewrite decide_True by left.
  - rewrite IH. case_decide as Hin.
    + by rewrite decide_True by (by right).
    + rewrite decide_False; [done|]. by intros [?|?]%elem_of_cons.
Qed.

Lemma elem_of_graph_node_types g t :
  t ∈ graph_node_types g ↔ ∃ n, graph_node g !! n = Some t.
Proof.
  unfold graph_node_types, graph_nodes.
  rewrite elem_of_sorted, elem_of_elements, elem_of_list_to_set, list_elem_of_fmap.
  split.
  - intros ([n t'] & -> & Hn%elem_of_map_to_list). by exists n.
  - intros [n Hn]. exists (n, t). by rewrite elem_of_map_to_list.
Qed.

(** The [edge_type_map] comprehension writes under the key [e] only,
    whatever edges it runs over. *)
Lemma edge_type_map_comprehension_key nts ets (ntm : gmap node Z) e es :
  ∀ m m',
    foldlM (edge_type_map_step nts ets ntm (Some e)) m es = Ok m' →
    ∀ k, k ≠ e → m' !! k = m !! k.
Proof.
  induction es as [|[[a b] r] es IH]; intros m m' Hrun k Hk.
  { by injection Hrun as <-. }
  cbn [foldlM] in Hrun.
  destruct (edge_type_map_step nts ets ntm (Some e) m (a, b, r))
    as [m1| |] eqn:Hstep; [|done..].
  rewrite bind_Ok in Hrun. rewrite (IH _ _ Hrun k Hk).
  unfold edge_type_map_step in Hstep. simpl in Hstep.
  destruct (getitem ntm a) as [i1| |]; [|done..]. rewrite bind_Ok in Hstep.
  destruct (list_getitem nts i1) as [t1| |]; [|done..]. rewrite bind_Ok in Hstep.
  destruct (getitem ntm b) as [i2| |]; [|done..]. rewrite bind_Ok in Hstep.
  destruct (list_getitem nts i2) as [t2| |]; [|done..]. rewrite bind_Ok in Hstep.
  destruct (list_index ets _) as [v| |]; [|done..]. rewrite bind_Ok in Hstep.
  injection Hstep as <-. by rewrite lookup_insert_ne.
Qed.

(** The edge loop does not get past its first line. *)
Lemma scan_edge_raises g st e : scan_edge g st e = Raise (edge_error g).
Proof.
  destruct st as [E GS]. unfold scan_edge, edge_getitem, edge_error.
  by destruct (has_edge_attr g).
Qed.

Lemma create_graph_schema_edges g create_type_maps :
  graph_edges g ≠ [] →
  create_graph_schema g create_type_maps = Raise (edge_error g).
Proof.
  intros Hedges. unfold create_graph_schema, graph_edge_pairs. cbv zeta.
  destruct (graph_edges g) as [|e es]; [done|].
  rewrite fmap_cons. cbn [foldlM]. by rewrite scan_edge_raises.
Qed.

(** What the builder returns on a graph without edges. *)
Lemma create_graph_schema_no_edges_eq g create_type_maps :
  graph_edges g = [] →
  create_graph_schema g create_type_maps = Ok (edgeless_schema g create_type_maps).
Proof.
  intros Hedges. unfold create_graph_schema, graph_edge_pairs. cbv zeta.
  fold (graph_node_types g). rewrite Hedges. cbn [fmap list_fmap foldlM].
  rewrite bind_Ok. cbv beta iota.
  rewrite elements_empty.
  change (sorted (@nil EdgeType)) with (@nil EdgeType).
  rewrite (dict_comprehension_fmap _ (λ _, [])).
  2:{ intros t nd Hnd. rewrite lookup_buckets in Hnd. case_decide; [|done].
      injection Hnd as <-. unfold schema_entry. by rewrite elements_empty. }
  rewrite bind_Ok.
  assert ((λ _ : gset EdgeType, @nil EdgeType) <$>
            (list_to_map ((λ nt, (nt, ∅)) <$> graph_node_types g)
               : gmap label (gset EdgeType)) =
          list_to_map ((λ nt, (nt, [])) <$> graph_node_types g)) as ->.
  { apply map_eq. intros t. rewrite lookup_fmap, !lookup_buckets.
    by case_decide. }
  destruct create_type_maps; [|done].
  rewrite (dict_comprehension_fmap _
             (λ t, Z.of_nat (index_of (graph_node_types g) t))).
  2:{ intros n t Hn. apply list_index_elem_of, elem_of_graph_node_types. eauto. }
  done.
Qed.

(** A schema is only ever built from a graph without edges. *)
Lemma create_graph_schema_Ok_inv g create_type_maps gs :
  create_graph_schema g create_type_maps = Ok gs →
  graph_edges g = [] ∧ gs = edgeless_schema g create_type_maps.
Proof.
  intros Hrun. destruct (decide (graph_edges g = [])) as [Hedges|Hedges].
  - split; [done|].
    rewrite create_graph_schema_no_edges_eq in Hrun by done. by injection Hrun.
  - by rewrite create_graph_schema_edges in Hrun.
Qed.

Lemma lookup_edgeless_schema g create_type_maps t :
  schema (edgeless_schema g create_type_maps) !! t =
  if decide (t ∈ graph_node_types g) then Some [] else None.
Proof. apply lookup_buckets. Qed.



(** C6: for every edge of the graph, directed or not, the builder raises
    at [self.edge[e]], with a KeyError where the graph has the attribute
    [edge] and an AttributeError where it has not: it returns no schema,
    so neither the forward nor the reverse triple of the edge is
    registered in any [edge_types] or [schema]. *)
Theorem edges_register_no_triple g create_type_maps a b r :
  (a, b, r) ∈ graph_edges g →
  create_graph_schema g create_type_maps = Raise (edge_error g) ∧
  ∀ gs, create_graph_schema g create_type_maps ≠ Ok gs.
Proof.
  intros Hin.
  assert (create_graph_schema g create_type_maps = Raise (edge_error g)) as Hrun.
  { apply create_graph_schema_edges. intros Hnil. rewrite Hnil in Hin.
    by apply elem_of_nil in Hin. }
  split; [done|]. intros gs. by rewrite Hrun.
Qed.

(** One undirected "rates" edge between a person and a movie. *)
Lemma edges_register_no_triple_witness :
  create_graph_schema
    (mkGraph (<[1 := "Person"]> (<[2 := "Movie"]> ∅)) [(1, 2, "rates")]
       false false) false
  = Raise AttributeError.
Proof.
  refine (proj1 (edges_register_no_triple
            (mkGraph (<[1 := "Person"]> (<[2 := "Movie"]> ∅)) [(1, 2, "rates")]
               false false) false 1 2 "rates" _)).
  simpl. left.
Defined.

(** ** Identifiers of the sampling tree *)

Lemma string_app_nil_l (s : string) : "" +:+ s = s.
Proof. done. Qed.

Lemma string_app_cons (a : ascii) (s t : string) :
  String a s +:+ t = String a (s +:+ t).
Proof. done. Qed.

Lemma string_app_assoc (s1 s2 s3 : string) :
  (s1 +:+ s2) +:+ s3 = s1 +:+ s2 +:+ s3.
Proof.
  induction s1 as [|a s1 IH]; [done|].
  change (String a ((s1 +:+ s2) +:+ s3) = String a (s1 +:+ s2 +:+ s3)).
  by rewrite IH.
Qed.

Lemma string_app_empty_r (s : string) : s +:+ "" = s.
Proof.
  induction s as [|a s IH]; [done|].
  change (String a (s +:+ "") = String a s). by rewrite IH.
Qed.

Lemma pretty_N_char_digit (n : N) : is_digit (pretty_N_char n).
Proof. unfold pretty_N_char. by repeat case_match. Qed.

Lemma pretty_N_go_digits (x : N) (s : string) :
  all_digits s → all_digits (pretty_N_go x s).
Proof.
  revert s. induction (N.lt_wf_0 x) as [x _ IH]; intros s Hs.
  assert (x = 0 ∨ 0 < x)%N as [->|?] by lia.
  - by rewrite pretty_N_go_0.
  - rewrite pretty_N_go_step by done. apply IH; [by apply N.div_lt|].
    simpl. apply andb_True. split; [apply pretty_N_char_digit|done].
Qed.

Lemma pretty_nat_digits (n : nat) : all_digits (pretty n).
Proof.
  unfold pretty, pretty_nat, pretty, pretty_N.
  case_decide; [done|]. by apply pretty_N_go_digits.
Qed.

(** An index can be read back from the front of an identifier. *)
Lemma digits_prefix_inj (d d' s s' : string) :
  all_digits d → all_digits d' → sep_start s → sep_start s' →
  d +:+ s = d' +:+ s' → d = d' ∧ s = s'.
Proof.
  revert d'. induction d as [|a d IH]; intros [|a' d'] Hd Hd' Hs Hs' Heq;
    rewrite ?string_app_nil_l, ?string_app_cons in Heq; simpl in *.
  - done.
  - subst s. simpl in Hs. apply andb_True in Hd' as [Ha _].
    by destruct (is_digit a').
  - subst s'. simpl in Hs'. apply andb_True in Hd as [Ha _].
    by destruct (is_digit a).
  - injection Heq as -> Heq.
    apply andb_True in Hd as [_ Hd]. apply andb_True in Hd' as [_ Hd'].
    destruct (IH d' Hd Hd' Hs Hs' Heq) as [-> ->]. done.
Qed.

Lemma pretty_prefix_inj (key : string) (i i' : nat) (s s' : string) :
  sep_start s → sep_start s' →
  key +:+ pretty i +:+ s = key +:+ pretty i' +:+ s' → i = i' ∧ s = s'.
Proof.
  intros Hs Hs' Heq%(inj (String.append key)).
  apply digits_prefix_inj in Heq as [Hi ->];
    [|apply pretty_nat_digits..|done|done].
  split; [|done]. by apply (inj pretty).
Qed.

Lemma fmap_bind_comm {A B C} (g : B → C) (h : A → list B) (l : list A) :
  g <$> (l ≫= h) = l ≫= λ x, g <$> h x.
Proof.
  induction l as [|x l IH]; [done|]. by rewrite !bind_cons, fmap_app, IH.
Qed.

Lemma lookup_enumerate {A} (l : list A) (i : nat) :
  enumerate l !! i = pair i <$> l !! i.
Proof. unfold enumerate. apply list_lookup_imap. Qed.

Lemma get_neighbor_types_inv sch limit node_type level key ch :
  get_neighbor_types sch limit node_type level key = Ok ch →
  (level = 0 ∧ ch = []) ∨
  ∃ limit' ets,
    limit = S limit' ∧ level ≠ 0 ∧ sch !! node_type = Some ets ∧
    length ch = length ets ∧
    ∀ i c, ch !! i = Some c →
      ∃ et ch', ets !! i = Some et ∧
        c = Tnode (key +:+ pretty i) et ch' ∧
        get_neighbor_types sch limit' (n2 et) (level - 1)
          ((key +:+ pretty i) +:+ "_") = Ok ch'.
Proof.
  destruct limit as [|limit]; [done|]. simpl.
  case_decide; [intros [= <-]; by left|].
  unfold getitem. destruct (sch !! node_type) as [ets|]; [|done].
  rewrite bind_Ok. intros Hch%mapM_Ok_Forall2. right.
  exists limit, ets. split_and!; [done..| |].
  - apply Forall2_length in Hch. unfold enumerate in Hch.
    by rewrite length_imap in Hch.
  - intros i c Hc.
    destruct (Forall2_lookup_r _ _ _ _ _ Hch Hc) as ([i' et] & Hi & Hbody).
    rewrite lookup_enumerate in Hi. destruct (ets !! i) as [et'|]; simplify_eq/=.
    unfold gen_key in Hbody. simpl in Hbody.
    destruct (get_neighbor_types _ _ _ _ _) as [ch'| |] eqn:Hrec; [|done..].
    rewrite bind_Ok in Hbody. injection Hbody as <-. eauto.
Qed.

Lemma get_neighbor_types_keyed sch limit :
  ∀ node_type level key ch,
    get_neighbor_types sch limit node_type level key = Ok ch →
    (ch = [] ∨ sch !! node_type = Some (tnode_et <$> ch)) ∧
    (∀ i c, ch !! i = Some c →
       tnode_id c = key +:+ pretty i ∧
       ∀ n, n ∈ tnode_nodes c →
         node_keyed sch n ∧
         ∃ s, tnode_id n = key +:+ pretty i +:+ s ∧ sep_start s) ∧
    NoDup (tnode_id <$> (ch ≫= tnode_nodes)).
Proof.
  induction limit as [|limit IH]; intros node_type level key ch Hrun; [done|].
  apply get_neighbor_types_inv in Hrun
    as [[_ ->]|(? & ets & [= <-] & _ & Hets & Hlen & Hch)].
  { split_and!; [by left|done|constructor]. }
  assert (∀ i c, ch !! i = Some c →
            tnode_id c = key +:+ pretty i ∧
            ∀ n, n ∈ tnode_nodes c →
              node_keyed sch n ∧
              ∃ s, tnode_id n = key +:+ pretty i +:+ s ∧ sep_start s) as Hnodes.
  { intros i c Hc. destruct (Hch i c Hc) as (et & ch' & Het & -> & Hrec).
    apply IH in Hrec as (Hch1 & Hch2 & _). split; [done|].
    intros n. simpl. intros [->|Hn]%elem_of_cons.
    - split; [|exists ""; by rewrite string_app_empty_r]. split; [exact Hch1|].
      simpl. intros k c' Hc'. destruct (Hch2 k c' Hc') as [-> _].
      by rewrite !string_app_assoc.
    - apply list_elem_of_bind in Hn as (c' & Hn & [k Hc']%list_elem_of_lookup).
      destruct (Hch2 k c' Hc') as [_ Hbelow].
      destruct (Hbelow n Hn) as (Hkeyed & s & -> & Hs). split; [done|].
      exists ("_" +:+ pretty k +:+ s). by rewrite !string_app_assoc. }
  split_and!; [right|done|].
  - rewrite Hets. f_equal. apply list_eq_same_length with (length ch);
      [by rewrite length_fmap|done|].
    intros i et et' Hi Het Het'.
    apply list_lookup_fmap_Some in Het' as (c & -> & Hc).
    destruct (Hch i c Hc) as (et'' & ch' & ? & -> & _). by simplify_eq/=.
  - rewrite fmap_bind_comm. apply NoDup_bind.
    + intros c1 c2 y [i1 Hc1]%list_elem_of_lookup [i2 Hc2]%list_elem_of_lookup
        (n1' & -> & Hn1)%list_elem_of_fmap (n2' & Hy & Hn2)%list_elem_of_fmap.
      destruct (Hnodes i1 c1 Hc1) as [_ H1]. destruct (H1 n1' Hn1) as (_ & s1 & Hs1 & ?).
      destruct (Hnodes i2 c2 Hc2) as [_ H2]. destruct (H2 n2' Hn2) as (_ & s2 & Hs2 & ?).
      rewrite Hs1, Hs2 in Hy. apply pretty_prefix_inj in Hy as [-> _]; [|done..].
      by simplify_eq.
    + intros c [i Hc]%list_elem_of_lookup.
      destruct (Hch i c Hc) as (et & ch' & Het & -> & Hrec).
      apply IH in Hrec as (_ & Hch2 & Hnodup). simpl. apply NoDup_cons.
      split; [|done]. intros (n & Hid & Hn)%list_elem_of_fmap.
      apply list_elem_of_bind in Hn as (c' & Hn & [k Hc']%list_elem_of_lookup).
      destruct (Hch2 k c' Hc') as [_ Hbelow].
      destruct (Hbelow n Hn) as (_ & s & Hs & _). rewrite Hs in Hid.
      rewrite !string_app_assoc in Hid.
      rewrite <-(string_app_empty_r (pretty i)) in Hid at 1.
      by apply pretty_prefix_inj in Hid as [_ [=]].
    + apply NoDup_alt. intros i j c Hi Hj.
      destruct (Hnodes i c Hi) as [Hidi _]. destruct (Hnodes j c Hj) as [Hidj _].
      rewrite Hidi in Hidj. apply (inj (String.append key)) in Hidj.
      by apply (inj pretty).
Qed.

Lemma get_sampling_tree_inv gs limit heads n_hops tree :
  get_sampling_tree gs limit heads n_hops = Ok tree →
  length tree = length heads ∧
  ∀ j r, tree !! j = Some r →
    ∃ hn ch, heads !! j = Some hn ∧ r = (pretty j, hn, ch) ∧
      get_neighbor_types (schema gs) limit hn n_hops (pretty j +:+ "#") = Ok ch.
Proof.
  unfold get_sampling_tree. intros Htree%mapM_Ok_Forall2. split.
  - apply Forall2_length in Htree. unfold enumerate in Htree.
    by rewrite length_imap in Htree.
  - intros j r Hr.
    destruct (Forall2_lookup_r _ _ _ _ _ Htree Hr) as ([j' hn] & Hj & Hbody).
    rewrite lookup_enumerate in Hj. destruct (heads !! j) as [hn'|]; simplify_eq/=.
    unfold gen_key in Hbody. simpl in Hbody. rewrite string_app_nil_l in Hbody.
    destruct (get_neighbor_types _ _ _ _ _) as [ch| |] eqn:Hrec; [|done..].
    rewrite bind_Ok in Hbody. injection Hbody as <-. eauto.
Qed.

(** The children of a call that is not at its last level are the edge
    types of the node type, in order. *)
Lemma get_neighbor_types_children sch limit node_type level key ch :
  level ≠ 0 →
  get_neighbor_types sch limit node_type level key = Ok ch →
  sch !! node_type = Some (tnode_et <$> ch).
Proof.
  intros Hlevel Hrun.
  apply get_neighbor_types_inv in Hrun
    as [[? _]|(? & ets & _ & _ & Hets & Hlen & Hch)]; [done|].
  rewrite Hets. f_equal. apply list_eq_same_length with (length ch);
    [by rewrite length_fmap|done|].
  intros i et et' Hi Het Het'.
  apply list_lookup_fmap_Some in Het' as (c & -> & Hc).
  destruct (Hch i c Hc) as (et'' & ch' & ? & -> & _). by simplify_eq/=.
Qed.

(** With [d] hops to go the tree below a node is the full expansion of
    the schema to depth [d]. *)
Lemma get_neighbor_types_expanded sch limit :
  ∀ d node_type key ch,
    get_neighbor_types sch limit node_type (Z.of_nat d) key = Ok ch →
    expanded sch d node_type ch.
Proof.
  induction limit as [|limit IH]; intros d node_type key ch Hrun; [done|].
  apply get_neighbor_types_inv in Hrun
    as [[Hd ->]|(? & ets & [= <-] & Hd & Hets & Hlen & Hch)].
  { destruct d; [done|lia]. }
  destruct d as [|d]; [done|]. simpl. exists ets. split; [done|].
  apply Forall2_same_length_lookup. split; [done|].
  intros i et c Het Hc.
  destruct (Hch i c Hc) as (et' & ch' & Het' & -> & Hrec). simplify_eq. simpl.
  split; [done|].
  replace (Z.of_nat (S d) - 1) with (Z.of_nat d) in Hrec by lia.
  by eapply IH.
Qed.

(** Below zero the level never reaches the base case: every node of the
    tree has all the edge types of its target type as children. *)
Lemma get_neighbor_types_below_zero sch limit :
  ∀ node_type level key ch,
    level < 0 →
    get_neighbor_types sch limit node_type level key = Ok ch →
    ∀ n, n ∈ ch ≫= tnode_nodes →
      sch !! n2 (tnode_et n) = Some (tnode_et <$> tnode_children n).
Proof.
  induction limit as [|limit IH]; intros node_type level key ch Hlevel Hrun;
    [done|].
  apply get_neighbor_types_inv in Hrun
    as [[? _]|(? & ets & [= <-] & _ & _ & _ & Hch)]; [lia|].
  intros n (c & Hn & [i Hc]%list_elem_of_lookup)%list_elem_of_bind.
  destruct (Hch i c Hc) as (et & ch' & _ & -> & Hrec). simpl in Hn.
  apply elem_of_cons in Hn as [->|Hn]; simpl.
  - eapply get_neighbor_types_children; [|exact Hrec]. lia.
  - eapply IH; [|exact Hrec|exact Hn]. lia.
Qed.

(** C4 (counterexample): the root of the one-hop tree of ["Person"] has
    the id "0", not "0#", and its child has the id "0#0", not "0#0_". *)
Lemma sampling_tree_ids_have_no_trailing_separator :
  get_sampling_tree movie_schema 2 ["Person"] 1 =
    Ok [("0", "Person",
         [Tnode "0#0" (mkEdgeType "Person" "rates" "Movie") []])] ∧
  "0" ≠ pretty 0%nat +:+ "#" ∧
  "0#0" ≠ (pretty 0%nat +:+ "#") +:+ pretty 0%nat +:+ "_".
Proof. by vm_compute. Qed.

(** C4 (amended): in a tree produced by [get_sampling_tree], root [j] is
    the [j]-th head type and has the id [str(j)]; its child [i] has the id
    [str(j) + "#" + str(i)]; child [i] of an entry with id [q] has the id
    [q + "_" + str(i)]; the children of a root or of an entry are the edge
    types [schema[node_type]] of its node type, in order, or there are
    none; and all ids of the tree are different.  Where there are none is
    settled by the depth: for [n_hops >= 0] the children of a root are
    the expansion of the schema to depth [n_hops] (an entry that has
    [n_hops] levels above it has no children, every other one has all the
    edge types of its type); for [n_hops < 0] every root and every entry
    has all of them. *)
Theorem sampling_tree_ids gs limit heads n_hops tree :
  get_sampling_tree gs limit heads n_hops = Ok tree →
  length tree = length heads ∧
  (∀ j id node_type ch, tree !! j = Some (id, node_type, ch) →
     id = pretty j ∧ heads !! j = Some node_type ∧
     (ch = [] ∨ schema gs !! node_type = Some (tnode_et <$> ch)) ∧
     ∀ i c, ch !! i = Some c → tnode_id c = pretty j +:+ "#" +:+ pretty i) ∧
  (∀ n, n ∈ tree_nodes tree → node_keyed (schema gs) n) ∧
  NoDup (tree_ids tree) ∧
  (0 ≤ n_hops →
   ∀ j id node_type ch, tree !! j = Some (id, node_type, ch) →
     expanded (schema gs) (Z.to_nat n_hops) node_type ch) ∧
  (n_hops < 0 →
   (∀ j id node_type ch, tree !! j = Some (id, node_type, ch) →
      schema gs !! node_type = Some (tnode_et <$> ch)) ∧
   ∀ n, n ∈ tree_nodes tree →
     schema gs !! n2 (tnode_et n) = Some (tnode_et <$> tnode_children n)).
Proof.
  intros [Hlen Hroots]%get_sampling_tree_inv.
  assert (∀ j r, tree !! j = Some r →
            r.1.1 = pretty j ∧
            ∀ y, y ∈ r.1.1 :: (tnode_id <$> (r.2 ≫= tnode_nodes)) →
              ∃ s, y = "" +:+ pretty j +:+ s ∧ sep_start s) as Hids.
  { intros j r Hr. destruct (Hroots j r Hr) as (hn & ch & _ & -> & Hrec).
    apply get_neighbor_types_keyed in Hrec as (_ & Hch & _).
    split; [done|]. simpl. intros y [->|Hy]%elem_of_cons.
    { exists "". by rewrite string_app_nil_l, string_app_empty_r. }
    apply list_elem_of_fmap in Hy as (n & -> & Hn).
    apply list_elem_of_bind in Hn as (c & Hn & [i Hc]%list_elem_of_lookup).
    destruct (Hch i c Hc) as [_ Hbelow].
    destruct (Hbelow n Hn) as (_ & s & -> & Hs).
    exists ("#" +:+ pretty i +:+ s).
    by rewrite string_app_nil_l, !string_app_assoc. }
  split_and!; [done| | | | |].
  4:{ intros Hn j id node_type ch Hr.
      destruct (Hroots j _ Hr) as (hn & ch' & _ & [= -> -> ->] & Hrec).
      eapply get_neighbor_types_expanded. by rewrite Z2Nat.id. }
  4:{ intros Hn. split.
      - intros j id node_type ch Hr.
        destruct (Hroots j _ Hr) as (hn & ch' & _ & [= -> -> ->] & Hrec).
        eapply get_neighbor_types_children; [|exact Hrec]. lia.
      - intros n (r & Hin & [j Hr]%list_elem_of_lookup)%list_elem_of_bind.
        destruct (Hroots j r Hr) as (hn & ch & _ & -> & Hrec). simpl in Hin.
        by eapply get_neighbor_types_below_zero. }
  - intros j id node_type ch Hr.
    destruct (Hroots j _ Hr) as (hn & ch' & Hhn & [= -> -> ->] & Hrec).
    apply get_neighbor_types_keyed in Hrec as (Hch1 & Hch2 & _).
    split_and!; [done..|]. intros i c Hc. destruct (Hch2 i c Hc) as [-> _].
    by rewrite string_app_assoc.
  - intros n (r & Hn & [j Hr]%list_elem_of_lookup)%list_elem_of_bind.
    destruct (Hroots j r Hr) as (hn & ch & _ & -> & Hrec).
    apply get_neighbor_types_keyed in Hrec as (_ & Hch & _). simpl in Hn.
    apply list_elem_of_bind in Hn as (c & Hn & [i Hc]%list_elem_of_lookup).
    destruct (Hch i c Hc) as [_ Hbelow]. by destruct (Hbelow n Hn).
  - apply NoDup_bind.
    + intros r1 r2 y [j1 Hr1]%list_elem_of_lookup [j2 Hr2]%list_elem_of_lookup
        Hy1 Hy2.
      destruct (Hids j1 r1 Hr1) as [_ H1]. destruct (H1 y Hy1) as (s1 & Hs1 & ?).
      destruct (Hids j2 r2 Hr2) as [_ H2]. destruct (H2 y Hy2) as (s2 & Hs2 & ?).
      rewrite Hs1 in Hs2. apply pretty_prefix_inj in Hs2 as [-> _]; [|done..].
      by simplify_eq.
    + intros r [j Hr]%list_elem_of_lookup.
      destruct (Hroots j r Hr) as (hn & ch & _ & -> & Hrec).
      apply get_neighbor_types_keyed in Hrec as (_ & Hch & Hnodup). simpl.
      apply NoDup_cons. split; [|done].
      intros (n & Hid & Hn)%list_elem_of_fmap.
      apply list_elem_of_bind in Hn as (c & Hn & [i Hc]%list_elem_of_lookup).
      destruct (Hch i c Hc) as [_ Hbelow].
      destruct (Hbelow n Hn) as (_ & s & Hs & _). rewrite Hs in Hid.
      rewrite !string_app_assoc in Hid.
      rewrite <-(string_app_empty_r (pretty j)) in Hid at 1.
      rewrite <-(string_app_nil_l (pretty j +:+ "")) in Hid.
      rewrite <-(string_app_nil_l (pretty j +:+ "#" +:+ _)) in Hid.
      by apply pretty_prefix_inj in Hid as [_ [=]].
    + apply NoDup_alt. intros i j r Hi Hj.
      destruct (Hids i r Hi) as [Hidi _]. destruct (Hids j r Hj) as [Hidj _].
      rewrite Hidi in Hidj. by apply (inj pretty).
Qed.

(** The ids of the two-hop tree of the movie schema. *)
Lemma sampling_tree_ids_witness :
  NoDup (tree_ids
    [("0", "Person",
      [Tnode "0#0" (mkEdgeType "Person" "rates" "Movie")
         [Tnode "0#0_0" (mkEdgeType "Movie" "rates" "Person") []]]);
     ("1", "Movie",
      [Tnode "1#0" (mkEdgeType "Movie" "rates" "Person")
         [Tnode "1#0_0" (mkEdgeType "Person" "rates" "Movie") []]])]).
Proof.
  refine (proj1 (proj2 (proj2 (proj2
    (sampling_tree_ids movie_schema 3 ["Person"; "Movie"] 2 _ _))))).
  vm_compute. reflexivity.
Defined.

(** ** Further facts about the sample inputs *)

(** Where every type reached has an edge type that leads on, a negative
    depth makes the recursion stop only at the bound of the call stack,
    whatever that bound is. *)
Lemma get_neighbor_types_overflows sch (P : label → Prop) :
  (∀ t, P t → ∃ et ets, sch !! t = Some (et :: ets) ∧ P (n2 et)) →
  ∀ limit node_type level key,
    P node_type → level < 0 →
    get_neighbor_types sch limit node_type level key = Raise RecursionError.
Proof.
  intros Hcycle limit.
  induction limit as [|limit IH]; intros node_type level key Hty Hlevel; [done|].
  destruct (Hcycle _ Hty) as (et & ets & Hets & Hnext).
  cbn [get_neighbor_types]. rewrite decide_False by lia.
  unfold getitem. rewrite Hets, bind_Ok.
  unfold enumerate. rewrite imap_cons, mapM_cons_eq.
  cbv beta iota. rewrite IH; [done|done|lia].
Qed.

Lemma get_sampling_tree_movie_overflows limit n_hops :
  n_hops < 0 →
  get_sampling_tree movie_schema limit ["Person"] n_hops = Raise RecursionError.
Proof.
  intros Hn. unfold get_sampling_tree, enumerate.
  rewrite imap_cons, mapM_cons_eq. cbv beta iota.
  rewrite (get_neighbor_types_overflows _
             (λ t, t = "Person" ∨ t = "Movie")); [done| |by left|done].
  intros t [-> | ->]; eexists _, _; (split; [reflexivity|]); simpl; auto.
Qed.

(** The two plans of the example of the specification, and their paths. *)
Example movie_tree_paths :
  tree_paths <$> try_except (get_sampling_tree movie_schema 3 ["Person"; "Movie"] 2)
  = Some [["Person"; "Movie"; "Person"]; ["Movie"; "Person"; "Movie"]].
Proof. by vm_compute. Qed.

Example movie_adj_paths :
  adj_paths 2 <$>
    try_except (get_type_adjacency_list movie_schema 4 ["Person"; "Movie"] 2)
  = Some [["Person"; "Movie"; "Person"]; ["Movie"; "Person"; "Movie"]].
Proof. by vm_compute. Qed.

(** * Further properties of the module *)

(** ** Key and index lookups of [GraphSchema] *)

Lemma list_index_None `{EqDecision A} (l : list A) (x : A) :
  try_except (list_index l x) = None ↔ x ∉ l.
Proof.
  split.
  - intros Hnone Hx. destruct (list_index_elem_of l x Hx) as [Hidx _].
    by rewrite Hidx in Hnone.
  - intros Hx. by rewrite list_index_not_elem_of.
Qed.

Lemma list_key_index_key `{EqDecision A} (l : list A) (x : A) :
  x ∈ l →
  ∃ i, try_except (list_index l x) = Some (Z.of_nat i) ∧
    (i < length l)%nat ∧
    try_except (list_getitem l (Z.of_nat i)) = Some x ∧
    ∀ j, (j < i)%nat → l !! j ≠ Some x.
Proof.
  intros Hx. unfold list_index.
  destruct (list_find_elem_of (λ y, y = x) l x Hx eq_refl) as [[i y] Hfind].
  rewrite Hfind. apply list_find_Some in Hfind as (Hi & -> & Hmin).
  exists i. split_and!; [done|by eapply lookup_lt_Some| |].
  - by rewrite (list_getitem_lookup l i x).
  - intros j Hj Hlook. by apply (Hmin j x).
Qed.

Lemma index_of_lookup `{EqDecision A} (l : list A) (i : nat) (x : A) :
  NoDup l → l !! i = Some x → index_of l x = i.
Proof.
  intros Hnodup Hi.
  destruct (list_index_elem_of l x) as [_ Hlook];
    [by eapply list_elem_of_lookup_2|].
  by eapply NoDup_lookup.
Qed.

(** X1: [node_key_to_index] answers [None] exactly for the labels that
    are not in [node_types]; for a label that is, it answers the position
    of its first occurrence, which is inside the list, and
    [node_index_to_key] at that position gives the label back. *)
Theorem node_key_to_index_round_trip (gs : GraphSchema) (key : label) :
  (node_key_to_index gs key = None ↔ key ∉ node_types gs) ∧
  (key ∈ node_types gs →
   ∃ i, node_key_to_index gs key = Some (Z.of_nat i) ∧
     (i < length (node_types gs))%nat ∧
     node_index_to_key gs (Z.of_nat i) = Some key ∧
     ∀ j, (j < i)%nat → node_types gs !! j ≠ Some key).
Proof. split; [apply list_index_None|apply list_key_index_key]. Qed.

(** "Person" is the second node type of the movie schema. *)
Lemma node_key_to_index_round_trip_witness :
  ∃ i, node_key_to_index movie_schema "Person" = Some (Z.of_nat i) ∧
    node_index_to_key movie_schema (Z.of_nat i) = Some "Person".
Proof.
  destruct (proj2 (node_key_to_index_round_trip movie_schema "Person"))
    as (i & Hidx & _ & Hkey & _); [simpl; right; left|].
  exists i. by split.
Defined.

(** X2: the same for edge types: [edge_key_to_index] answers [None]
    exactly for the triples that are not in [edge_types], else the first
    position of the triple, and [edge_index_to_key] gives it back. *)
Theorem edge_key_to_index_round_trip (gs : GraphSchema) (key : EdgeType) :
  (edge_key_to_index gs key = None ↔ key ∉ edge_types gs) ∧
  (key ∈ edge_types gs →
   ∃ i, edge_key_to_index gs key = Some (Z.of_nat i) ∧
     (i < length (edge_types gs))%nat ∧
     edge_index_to_key gs (Z.of_nat i) = Some key ∧
     ∀ j, (j < i)%nat → edge_types gs !! j ≠ Some key).
Proof. split; [apply list_index_None|apply list_key_index_key]. Qed.

(** The triple from "Person" is the second edge type of the movie schema. *)
Lemma edge_key_to_index_round_trip_witness :
  ∃ i, edge_key_to_index movie_schema (mkEdgeType "Person" "rates" "Movie")
       = Some (Z.of_nat i) ∧
    edge_index_to_key movie_schema (Z.of_nat i)
    = Some (mkEdgeType "Person" "rates" "Movie").
Proof.
  destruct (proj2 (edge_key_to_index_round_trip movie_schema
                     (mkEdgeType "Person" "rates" "Movie")))
    as (i & Hidx & _ & Hkey & _); [simpl; right; left|].
  exists i. by split.
Defined.

(** ** [get_edge_type] *)

Lemma get_edge_type_lookup (gs : GraphSchema) (m : gmap (node * node) Z)
    (edge : node * node) (index : bool) :
  edge_type_map gs = Some m →
  get_edge_type gs edge index =
  (m !! edge ∪ m !! (edge.2, edge.1)) ≫= λ et,
    if index then Some (inl et)
    else inr <$> try_except (list_getitem (edge_types gs) et).
Proof.
  intros Hm. unfold get_edge_type, getitem. rewrite Hm.
  destruct (m !! edge) as [v|] eqn:Hedge.
  - rewrite decide_True by eauto.
    destruct (m !! (edge.2, edge.1)) as [w|]; cbn;
      (destruct index; [done|]); by destruct (list_getitem (edge_types gs) v).
  - rewrite decide_False by (by intros [??]).
    destruct (m !! (edge.2, edge.1)) as [w|]; cbn; [|done].
    destruct index; [done|]. by destruct (list_getitem (edge_types gs) w).
Qed.

(** X3: with [index=True], [get_edge_type] answers the entry of
    [edge_type_map] under the edge as given, else the entry under the
    reversed pair, else [None]; so both orientations get the same answer
    unless the map holds different entries for the two. *)
Theorem get_edge_type_orientation (gs : GraphSchema) (m : gmap (node * node) Z)
    (a b : node) (index : bool) :
  edge_type_map gs = Some m →
  get_edge_type gs (a, b) true = inl <$> (m !! (a, b) ∪ m !! (b, a)) ∧
  (m !! (a, b) = None ∨ m !! (b, a) = None ∨ m !! (a, b) = m !! (b, a) →
   get_edge_type gs (a, b) index = get_edge_type gs (b, a) index).
Proof.
  intros Hm. rewrite !(get_edge_type_lookup gs m) by done. simpl. split.
  - by destruct (m !! (a, b) ∪ m !! (b, a)).
  - intros Hcase. f_equal.
    destruct (m !! (a, b)) as [v|], (m !! (b, a)) as [w|]; try done.
    destruct Hcase as [?|[?|?]]; by simplify_eq.
Qed.

(** An edge stored as (3,2) and queried as (2,3). *)
Lemma get_edge_type_orientation_witness :
  get_edge_type (mkGraphSchema [] [] ∅ None (Some {[ (3, 2) := 1 ]})) (2, 3) true
  = Some (inl 1).
Proof.
  refine (proj1 (get_edge_type_orientation
                   (mkGraphSchema [] [] ∅ None (Some {[ (3, 2) := 1 ]}))
                   {[ (3, 2) := 1 ]} 2 3 true _)).
  reflexivity.
Defined.

(** With [index=False], [get_edge_type] answers the triple that
    [edge_index_to_key] finds at the index it answers with [index=True]
    (and [None] when there is no such index or no such triple). *)
Lemma get_edge_type_name (gs : GraphSchema) (edge : node * node) :
  get_edge_type gs edge false =
  get_edge_type gs edge true ≫= λ r,
    match r with
    | inl et => inr <$> edge_index_to_key gs et
    | inr _ => None
    end.
Proof.
  unfold get_edge_type, edge_index_to_key.
  destruct (edge_type_map gs) as [m|]; simpl; [|done].
  case_decide; unfold getitem.
  - destruct (m !! edge); simpl; [|done].
    by destruct (list_getitem (edge_types gs) _).
  - destruct (m !! (edge.2, edge.1)); simpl; [|done].
    by destruct (list_getitem (edge_types gs) _).
Qed.

(** ** The node types of a built schema *)

Lemma StronglySorted_strict `{Lexico A, !TrichotomyT (@lexico A _),
    !StrictOrder (@lexico A _)} (l : list A) :
  StronglySorted lexico_le l → NoDup l → StronglySorted lexico l.
Proof.
  induction 1 as [|x l _ IH Hx]; intros Hnodup; [constructor|].
  apply NoDup_cons in Hnodup as [Hnotin Hnodup].
  constructor; [by apply IH|].
  rewrite Forall_forall in Hx. apply Forall_forall. intros y Hy.
  destruct (proj1 (lexico_le_spec x y) (Hx y Hy)) as [?| ->]; done.
Qed.

(** X4: the node types of a built schema are exactly the labels carried
    by the nodes of the graph, in strictly ascending order (so without
    duplicates). *)
Theorem built_node_types g create_type_maps gs :
  create_graph_schema g create_type_maps = Ok gs →
  (∀ t, t ∈ node_types gs ↔ ∃ n, graph_node g !! n = Some t) ∧
  StronglySorted lexico (node_types gs) ∧
  NoDup (node_types gs).
Proof.
  intros [_ ->]%create_graph_schema_Ok_inv. simpl.
  assert (NoDup (graph_node_types g)) as Hnodup.
  { apply NoDup_sorted, NoDup_elements. }
  split_and!; [apply elem_of_graph_node_types| |done].
  apply StronglySorted_strict; [apply StronglySorted_sorted|done].
Qed.

(** The node types of the three nodes without edges. *)
Lemma built_node_types_witness :
  ∃ gs, create_graph_schema (unrated_graph true false) false = Ok gs ∧
    node_types gs = ["Movie"; "Person"] ∧
    StronglySorted lexico (node_types gs).
Proof.
  exists (edgeless_schema (unrated_graph true false) false).
  assert (create_graph_schema (unrated_graph true false) false =
          Ok (edgeless_schema (unrated_graph true false) false)) as Hrun.
  { vm_compute. reflexivity. }
  split; [exact Hrun|]. split; [vm_compute; reflexivity|].
  exact (proj1 (proj2 (built_node_types _ _ _ Hrun))).
Defined.

(** ** When the builder returns *)

(** X9: [create_graph_schema] returns a schema exactly for the graphs
    without edges.  On a graph with an edge it raises in the first pass
    of the edge loop, a KeyError where the graph has the attribute [edge]
    and an AttributeError where it has not, whatever the flags. *)
Theorem create_graph_schema_outcome g create_type_maps :
  (graph_edges g = [] ↔ ∃ gs, create_graph_schema g create_type_maps = Ok gs) ∧
  (graph_edges g ≠ [] →
   create_graph_schema g create_type_maps =
   Raise (if has_edge_attr g then KeyError else AttributeError)).
Proof.
  split.
  - split.
    + intros Hedges. eexists. by apply create_graph_schema_no_edges_eq.
    + intros [gs Hrun]. by apply create_graph_schema_Ok_inv in Hrun as [? _].
  - apply create_graph_schema_edges.
Qed.

(** The movie graph with its two edges, as a networkx 1.x object. *)
Lemma create_graph_schema_outcome_witness :
  create_graph_schema (movie_graph false true) true = Raise KeyError.
Proof.
  apply (proj2 (create_graph_schema_outcome (movie_graph false true) true)).
  simpl. discriminate.
Defined.

(** ** Plans over a built schema *)

Lemma get_neighbor_types_leaf sch limit node_type level key :
  sch !! node_type = Some [] →
  get_neighbor_types sch (S limit) node_type level key = Ok [].
Proof.
  intros Hleaf. simpl. case_decide; [done|]. unfold getitem. by rewrite Hleaf.
Qed.

Lemma process_queue_leaves sch n_hops :
  ∀ q fuel clist,
    (∀ nt ninx lvl, (nt, ninx, lvl) ∈ q → sch !! nt = Some []) →
    (length q ≤ fuel)%nat →
    process_queue sch n_hops fuel clist q = Ok clist.
Proof.
  induction q as [|[[nt ninx] lvl] q IH]; intros fuel clist Hq Hfuel.
  { by destruct fuel. }
  destruct fuel as [|fuel]; [simpl in Hfuel; lia|].
  simpl. unfold getitem. rewrite (Hq nt ninx lvl) by left. cbn.
  apply IH; [|simpl in Hfuel; lia].
  intros nt' ninx' lvl' Hin. eapply Hq. by right.
Qed.

(** X8: over a schema the builder has returned, both generators return
    the bare head entries for head types taken from [node_types], whatever
    [n_hops] is: the roots of the sampling tree have no children and the
    adjacency list has no entry beyond the heads.  (One call frame and one
    loop pass per head are enough.) *)
Theorem plans_of_built_schema_are_childless g create_type_maps gs heads n_hops
    limit fuel :
  create_graph_schema g create_type_maps = Ok gs →
  (∀ hn, hn ∈ heads → hn ∈ node_types gs) →
  (length heads ≤ fuel)%nat →
  get_sampling_tree gs (S limit) heads n_hops =
    Ok (imap (λ jj hn, (pretty jj, hn, [])) heads) ∧
  get_type_adjacency_list gs fuel heads n_hops =
    Ok ((λ hn, (hn, [])) <$> heads).
Proof.
  intros [_ ->]%create_graph_schema_Ok_inv Hheads Hfuel.
  assert (∀ hn, hn ∈ heads →
            schema (edgeless_schema g create_type_maps) !! hn = Some [])
    as Hleaf.
  { intros hn Hhn. rewrite lookup_edgeless_schema, decide_True; [done|].
    by apply Hheads. }
  split.
  - unfold get_sampling_tree. apply mapM_Ok_Forall2.
    apply Forall2_lookup. intros i. unfold enumerate.
    rewrite !list_lookup_imap.
    destruct (heads !! i) as [hn|] eqn:Hi;
      cbn [fmap option_fmap option_map]; constructor.
    rewrite get_neighbor_types_leaf; [done|].
    apply Hleaf. by eapply list_elem_of_lookup_2.
  - rewrite get_type_adjacency_list_unfold. apply process_queue_leaves.
    + intros nt ninx lvl Hin. case_decide; [|by apply elem_of_nil in Hin].
      apply elem_of_lookup_imap in Hin as (i & hn & [= -> -> ->] & Hi).
      apply Hleaf. by eapply list_elem_of_lookup_2.
    + case_decide; [by rewrite length_imap|simpl; lia].
Qed.

(** Two hops from "Person" and "Movie" over the three nodes without
    edges. *)
Lemma plans_of_built_schema_are_childless_witness :
  ∃ gs, create_graph_schema (unrated_graph false false) false = Ok gs ∧
    get_sampling_tree gs 1 ["Person"; "Movie"] 2 =
      Ok [("0", "Person", []); ("1", "Movie", [])] ∧
    get_type_adjacency_list gs 2 ["Person"; "Movie"] 2 =
      Ok [("Person", []); ("Movie", [])].
Proof.
  exists (edgeless_schema (unrated_graph false false) false).
  assert (create_graph_schema (unrated_graph false false) false =
          Ok (edgeless_schema (unrated_graph false false) false)) as Hrun.
  { vm_compute. reflexivity. }
  split; [exact Hrun|].
  apply (plans_of_built_schema_are_childless _ _ _ ["Person"; "Movie"] 2 0 2
           Hrun).
  - intros hn Hhn. vm_compute.
    apply elem_of_cons in Hhn as [->|Hhn]; [right; left|].
    apply list_elem_of_singleton in Hhn as ->. left.
  - simpl. lia.
Defined.

(** ** The type maps of a built schema *)

(** X10: on a schema built with type maps, [get_node_type] with
    [index=True] answers, for every node of the graph, an index at which
    [node_index_to_key] finds the label of that node (and which
    [node_key_to_index] gives for that label); for anything that is not a
    node of the graph it answers [None], whatever the flag. *)
Theorem get_node_type_index_built g gs n :
  create_graph_schema g true = Ok gs →
  (∀ t, graph_node g !! n = Some t →
     ∃ i, get_node_type gs n true = Some (inl i) ∧
       node_index_to_key gs i = Some t ∧
       node_key_to_index gs t = Some i) ∧
  (graph_node g !! n = None →
     ∀ index, get_node_type gs n index = None).
Proof.
  intros [_ ->]%create_graph_schema_Ok_inv. split.
  - intros t Ht.
    assert (t ∈ graph_node_types g) as Hin
      by (apply elem_of_graph_node_types; eauto).
    destruct (list_index_elem_of (graph_node_types g) t Hin) as [Hidx Hlook].
    exists (Z.of_nat (index_of (graph_node_types g) t)). split_and!.
    + rewrite get_node_type_index. simpl. unfold graph_node_type_map.
      by rewrite lookup_fmap, Ht.
    + unfold node_index_to_key. simpl.
      by rewrite (list_getitem_lookup _ _ t).
    + unfold node_key_to_index. simpl. by rewrite Hidx.
  - intros Hnone [|].
    + rewrite get_node_type_index. simpl. unfold graph_node_type_map.
      by rewrite lookup_fmap, Hnone.
    + rewrite get_node_type_name. simpl. unfold graph_node_type_map.
      by rewrite lookup_fmap, Hnone.
Qed.

(** Node 3 of the three nodes without edges is a "Person". *)
Lemma get_node_type_index_built_witness :
  ∃ gs i, create_graph_schema (unrated_graph false false) true = Ok gs ∧
    get_node_type gs 3 true = Some (inl i) ∧
    node_index_to_key gs i = Some "Person".
Proof.
  assert (create_graph_schema (unrated_graph false false) true =
          Ok (edgeless_schema (unrated_graph false false) true)) as Hrun.
  { vm_compute. reflexivity. }
  destruct (proj1 (get_node_type_index_built _ _ 3 Hrun) "Person")
    as (i & Hidx & Hkey & _); [reflexivity|].
  exists (edgeless_schema (unrated_graph false false) true), i.
  split; [exact Hrun|]. split; [exact Hidx|exact Hkey].
Defined.

(** X11: on a schema built without type maps, [get_node_type] and
    [get_edge_type] answer [None] for every node, edge and flag. *)
Theorem type_lookups_without_maps g gs :
  create_graph_schema g false = Ok gs →
  (∀ n index, get_node_type gs n index = None) ∧
  (∀ edge index, get_edge_type gs edge index = None).
Proof.
  intros [_ ->]%create_graph_schema_Ok_inv. split.
  - intros n index. by unfold get_node_type.
  - intros edge index. by unfold get_edge_type.
Qed.

(** The three nodes without edges, built without type maps. *)
Lemma type_lookups_without_maps_witness :
  ∃ gs, create_graph_schema (unrated_graph false false) false = Ok gs ∧
    get_node_type gs 1 true = None.
Proof.
  exists (edgeless_schema (unrated_graph false false) false).
  assert (create_graph_schema (unrated_graph false false) false =
          Ok (edgeless_schema (unrated_graph false false) false)) as Hrun.
  { vm_compute. reflexivity. }
  split; [exact Hrun|].
  exact (proj1 (type_lookups_without_maps _ _ Hrun) 1 true).
Defined.

(** X12: on a built schema, whose [node_types] has no duplicates, the
    lookup by index is undone by the lookup by key: the label found at an
    index has that index, counted from the front. *)
Theorem node_index_round_trip_built g create_type_maps gs i key :
  create_graph_schema g create_type_maps = Ok gs →
  node_index_to_key gs i = Some key →
  node_key_to_index gs key =
  Some (if decide (0 ≤ i) then i
        else Z.of_nat (length (node_types gs)) + i).
Proof.
  intros [_ ->]%create_graph_schema_Ok_inv. simpl.
  unfold node_index_to_key, node_key_to_index. simpl.
  assert (NoDup (graph_node_types g)) as Hnodup.
  { apply NoDup_sorted, NoDup_elements. }
  revert Hnodup. generalize (graph_node_types g). intros l Hnodup Hget.
  assert (∃ j, l !! j = Some key ∧
            Z.of_nat j = if decide (0 ≤ i) then i
                         else Z.of_nat (length l) + i) as (j & Hj & <-).
  { case_decide.
    - rewrite list_getitem_nonneg in Hget by done.
      exists (Z.to_nat i). split; [done|lia].
    - destruct (decide (- Z.of_nat (length l) ≤ i)).
      + rewrite list_getitem_negative in Hget by lia.
        exists (Z.to_nat (Z.of_nat (length l) + i)). split; [done|lia].
      + assert (try_except (list_getitem l i) = None) as Hnone
          by (apply list_getitem_None; lia).
        by rewrite Hnone in Hget. }
  destruct (list_index_elem_of l key) as [-> _];
    [by eapply list_elem_of_lookup_2|].
  simpl. by rewrite (index_of_lookup l j key).
Qed.

(** The last node type of the three nodes, read from the end. *)
Lemma node_index_round_trip_built_witness :
  ∃ gs, create_graph_schema (unrated_graph false false) false = Ok gs ∧
    node_key_to_index gs "Person" = Some 1.
Proof.
  exists (edgeless_schema (unrated_graph false false) false).
  assert (create_graph_schema (unrated_graph false false) false =
          Ok (edgeless_schema (unrated_graph false false) false)) as Hrun.
  { vm_compute. reflexivity. }
  split; [exact Hrun|].
  refine (node_index_round_trip_built _ _ _ (-1) "Person" Hrun _).
  vm_compute. reflexivity.
Defined.

(** X14: for a graph without edges the builder returns a schema with no
    edge types, an empty [schema] entry for every node type, and, with
    type maps, an empty [edge_type_map]. *)
Theorem create_graph_schema_no_edges g create_type_maps :
  graph_edges g = [] →
  ∃ gs, create_graph_schema g create_type_maps = Ok gs ∧
    edge_types gs = [] ∧
    (∀ t, t ∈ node_types gs → schema gs !! t = Some []) ∧
    (create_type_maps = true → edge_type_map gs = Some ∅).
Proof.
  intros Hedges. exists (edgeless_schema g create_type_maps).
  split_and!; [by apply create_graph_schema_no_edges_eq|done| |].
  - intros t Ht. by rewrite lookup_edgeless_schema, decide_True.
  - by intros ->.
Qed.

(** Three nodes and no edge. *)
Lemma create_graph_schema_no_edges_witness :
  ∃ gs, create_graph_schema
          (mkGraph (graph_node (movie_graph false false)) [] false false) true
        = Ok gs ∧
    edge_type_map gs = Some ∅.
Proof.
  destruct (create_graph_schema_no_edges
              (mkGraph (graph_node (movie_graph false false)) [] false false)
              true)
    as (gs & Hrun & _ & _ & Hmap); [reflexivity|].
  exists gs. split; [exact Hrun|]. by apply Hmap.
Defined.

(** ** The shape of the type paths *)

Lemma expand_paths_S sch d t :
  expand_paths sch (S d) t =
  match default [] (sch !! t) with
  | [] => [[t]]
  | ets => cons t <$> (ets ≫= λ et, expand_paths sch d (n2 et))
  end.
Proof. done. Qed.

Lemma expand_paths_walk sch d : ∀ t p,
  p ∈ expand_paths sch d t → schema_walk sch d t p.
Proof.
  induction d as [|d IH]; intros t p Hp.
  { apply list_elem_of_singleton in Hp as ->.
    split_and!; [done|simpl; lia| |by left].
    intros k ta tb _ Hk. by destruct k. }
  rewrite expand_paths_S in Hp.
  destruct (default [] (sch !! t)) as [|et0 ets] eqn:Hets.
  { apply list_elem_of_singleton in Hp as ->.
    split_and!; [done|simpl; lia| |].
    - intros k ta tb _ Hk. by destruct k.
    - right. by exists t. }
  assert (sch !! t = Some (et0 :: ets)) as Hsch.
  { by destruct (sch !! t); simplify_eq/=. }
  apply list_elem_of_fmap in Hp as (p' & -> & Hp').
  apply list_elem_of_bind in Hp' as (et & Hp' & Het).
  destruct (IH _ _ Hp') as (Hhead & Hlen & Hlinks & Hend).
  split_and!; [done|simpl; lia| |].
  - intros [|k] ta tb Hk Hk'; simpl in *.
    + simplify_eq. by exists (et0 :: ets), et.
    + by eapply Hlinks.
  - destruct Hend as [Hfull|(tl & Hlast & Hleaf)]; [left; simpl; lia|].
    right. exists tl. split; [|done].
    destruct p' as [|t' p']; [done|]. by rewrite last_cons, Hlast.
Qed.

(** X15: for [n_hops >= 0], every type path of a returned sampling tree,
    and every type path of a returned adjacency list, starts at one of
    the head types, follows edge types of the schema from type to type,
    has at most [n_hops + 1] types, and has fewer only where it ends in a
    type without outgoing edge types. *)
Theorem plan_paths_are_schema_walks gs heads n_hops :
  0 ≤ n_hops →
  (∀ limit tree p,
     get_sampling_tree gs limit heads n_hops = Ok tree →
     p ∈ tree_paths tree →
     ∃ hn, hn ∈ heads ∧ schema_walk (schema gs) (Z.to_nat n_hops) hn p) ∧
  (∀ fuel clist p,
     get_type_adjacency_list gs fuel heads n_hops = Ok clist →
     p ∈ adj_paths (length heads) clist →
     ∃ hn, hn ∈ heads ∧ schema_walk (schema gs) (Z.to_nat n_hops) hn p).
Proof.
  intros Hn.
  assert (∀ p, p ∈ heads ≫= expand_paths (schema gs) (Z.to_nat n_hops) →
            ∃ hn, hn ∈ heads ∧ schema_walk (schema gs) (Z.to_nat n_hops) hn p)
    as Hwalk.
  { intros p (hn & Hp & Hhn)%list_elem_of_bind.
    exists hn. split; [done|]. by apply expand_paths_walk. }
  split.
  - intros limit tree p Htree Hp. apply Hwalk.
    rewrite <-(Z2Nat.id n_hops) in Htree by done.
    by rewrite <-(get_sampling_tree_paths _ _ _ _ _ Htree).
  - intros fuel clist p Hclist Hp. apply Hwalk.
    by rewrite <-(get_type_adjacency_list_paths _ _ _ _ _ Hn Hclist).
Qed.

(** The two-hop paths from "Person" on the movie schema. *)
Lemma plan_paths_are_schema_walks_witness :
  ∃ hn, hn ∈ ["Person"] ∧
    schema_walk (schema movie_schema) 2 hn ["Person"; "Movie"; "Person"].
Proof.
  assert (0 ≤ 2) as Hn by lia.
  refine (proj1 (plan_paths_are_schema_walks movie_schema ["Person"] 2 Hn)
            3%nat _ _ _ _).
  - vm_compute. reflexivity.
  - vm_compute. left.
Defined.

(** ** The entries of the adjacency list *)

Lemma get_type_adjacency_list_inv gs fuel heads n_hops clist :
  0 ≤ n_hops →
  get_type_adjacency_list gs fuel heads n_hops = Ok clist →
  ∃ lv, queue_inv (schema gs) n_hops heads clist lv [].
Proof.
  intros Hn. rewrite get_type_adjacency_list_unfold. intros Hrun.
  by eapply process_queue_queue_inv; [apply queue_inv_init|].
Qed.

(** X16: a returned adjacency list starts with one entry per head type,
    in order; and every entry either has no children or has one child per
    edge type of its node type, in the order of [schema], the child
    carrying the target type of that edge type. *)
Theorem adjacency_entries_follow_schema gs fuel heads n_hops clist :
  get_type_adjacency_list gs fuel heads n_hops = Ok clist →
  (length heads ≤ length clist)%nat ∧
  (∀ j hn, heads !! j = Some hn → fst <$> clist !! j = Some hn) ∧
  (∀ i nt cs, clist !! i = Some (nt, cs) →
     cs = [] ∨
     ∃ ets, schema gs !! nt = Some ets ∧
       Forall2 (λ et c, fst <$> clist !! c = Some (n2 et)) ets cs).
Proof.
  intros Hrun. destruct (decide (0 ≤ n_hops)) as [Hn|Hn].
  - destruct (get_type_adjacency_list_inv _ _ _ _ _ Hn Hrun)
      as (lv & Hlen & _ & _ & Hdone & Hheads).
    split_and!.
    + destruct (decide (length heads ≤ length clist)%nat) as [|Hlt]; [done|].
      destruct (lookup_lt_is_Some_2 heads (length clist)) as [hn Hhn]; [lia|].
      destruct (Hheads _ _ Hhn) as [Hty _].
      by rewrite lookup_ge_None_2 in Hty.
    + intros j hn Hj. by apply Hheads.
    + intros i nt cs Hi.
      destruct (lookup_lt_is_Some_2 lv i) as [l Hl].
      { rewrite Hlen. by eapply lookup_lt_Some. }
      destruct (Hdone i (lookup_lt_Some _ _ _ Hi) (not_elem_of_nil _)
                  nt cs l Hi Hl) as [(_ & ets & Hets & Hch)|[_ ->]];
        [right|by left].
      exists ets. split; [done|]. eapply Forall2_impl; [done|].
      by intros et c (_ & ? & _).
  - rewrite get_type_adjacency_list_no_hops in Hrun by lia.
    injection Hrun as <-. rewrite length_fmap. split_and!; [done| |].
    + intros j hn Hj. by rewrite list_lookup_fmap, Hj.
    + intros i nt cs (hn & ? & _)%list_lookup_fmap_Some. left. by simplify_eq.
Qed.

(** The two-hop adjacency list of the movie schema. *)
Lemma adjacency_entries_follow_schema_witness :
  fst <$> [("Person", [2%nat]); ("Movie", [3%nat]); ("Movie", [4%nat]);
           ("Person", [5%nat]); ("Person", []); ("Movie", [])] !! 1%nat
  = Some "Movie".
Proof.
  refine (proj1 (proj2 (adjacency_entries_follow_schema movie_schema 4
                          ["Person"; "Movie"] 2 _ _)) 1%nat "Movie" _).
  - vm_compute. reflexivity.
  - reflexivity.
Defined.

Lemma process_queue_contiguous sch n_hops heads fuel :
  ∀ clist q lv r,
    queue_inv sch n_hops heads clist lv q → contiguous clist →
    process_queue sch n_hops fuel clist q = Ok r → contiguous r.
Proof.
  induction fuel as [|fuel IH]; intros clist q lv r Hinv Hcont.
  { destruct q as [|[[??]?]]; [|done]. by intros [= <-]. }
  destruct q as [|[[nt ninx] lvl] q]; [by intros [= <-]|].
  simpl. unfold getitem. destruct (sch !! nt) as [ets|] eqn:Hets; [|done]. cbn.
  pose proof Hinv as (_ & _ & Hq & _).
  destruct (Hq nt ninx lvl) as (Hninx & _ & _); [by left|].
  rewrite (foldlM_visit_edge_type_Ok _ _ _ _ _ _ nt []) by done. cbn.
  apply IH with (lv := lv ++ replicate (length ets) (S lvl)).
  { by apply queue_inv_step. }
  intros i nt' cs Hi. apply lookup_app_Some in Hi as [Hi|[_ Hi]].
  - destruct (decide (i = ninx)) as [->|Hne].
    + rewrite list_lookup_insert_eq in Hi by (by eapply lookup_lt_Some).
      simplify_eq. exists (length clist). by rewrite length_seq.
    + rewrite list_lookup_insert_ne in Hi by done. by eapply Hcont.
  - apply list_lookup_fmap_Some in Hi as (et & ? & _). simplify_eq.
    by exists 0%nat.
Qed.

(** X17: in a returned adjacency list the children of every entry are
    consecutive indices: the entries of one parent lie side by side, in
    the order of its edge types. *)
Theorem adjacency_children_are_consecutive gs fuel heads n_hops clist :
  get_type_adjacency_list gs fuel heads n_hops = Ok clist →
  ∀ i nt cs, clist !! i = Some (nt, cs) → ∃ a, cs = seq a (length cs).
Proof.
  intros Hrun. destruct (decide (0 ≤ n_hops)) as [Hn|Hn].
  - rewrite get_type_adjacency_list_unfold in Hrun.
    eapply process_queue_contiguous; [by apply queue_inv_init| |done].
    intros i nt cs (hn & ? & _)%list_lookup_fmap_Some. simplify_eq.
    by exists 0%nat.
  - rewrite get_type_adjacency_list_no_hops in Hrun by lia.
    injection Hrun as <-.
    intros i nt cs (hn & ? & _)%list_lookup_fmap_Some. simplify_eq.
    by exists 0%nat.
Qed.

(** One hop from "Person" where people have two edge types. *)
Lemma adjacency_children_are_consecutive_witness :
  ∃ a, [1%nat; 2%nat] = seq a (length [1%nat; 2%nat]).
Proof.
  refine (adjacency_children_are_consecutive social_schema 1 ["Person"] 1
            [("Person", [1%nat; 2%nat]); ("Person", []); ("Movie", [])] _
            0%nat "Person" [1%nat; 2%nat] _).
  - vm_compute. reflexivity.
  - reflexivity.
Defined.

(** ** Sampling trees over a schema keyed by source type *)

(** X18: where every edge type listed under a node type leaves that node
    type, the edge types directly below a root of a sampling tree leave
    the root's node type, and the edge types below any other entry leave
    the target type of that entry's edge type: the tree chains sources to
    targets all the way down. *)
Theorem sampling_tree_edge_types_chain gs limit heads n_hops tree :
  (∀ t ets et, schema gs !! t = Some ets → et ∈ ets → n1 et = t) →
  get_sampling_tree gs limit heads n_hops = Ok tree →
  (∀ j id node_type ch c, tree !! j = Some (id, node_type, ch) → c ∈ ch →
     n1 (tnode_et c) = node_type) ∧
  (∀ n c, n ∈ tree_nodes tree → c ∈ tnode_children n →
     n1 (tnode_et c) = n2 (tnode_et n)).
Proof.
  intros Hsources [_ Hroots]%get_sampling_tree_inv.
  assert (∀ t (ch : list tnode) c,
            ch = [] ∨ schema gs !! t = Some (tnode_et <$> ch) → c ∈ ch →
            n1 (tnode_et c) = t) as Hbelow.
  { intros t ch c [->|Hch] Hc; [by apply elem_of_nil in Hc|].
    apply (Hsources t _ _ Hch). apply list_elem_of_fmap; eauto. }
  split.
  - intros j id node_type ch c Hr Hc.
    destruct (Hroots j _ Hr) as (hn & ch' & _ & [= -> -> ->] & Hrec).
    apply get_neighbor_types_keyed in Hrec as (Hch & _ & _).
    by apply (Hbelow hn ch').
  - intros n c (r & Hn & [j Hr]%list_elem_of_lookup)%list_elem_of_bind Hc.
    destruct (Hroots j r Hr) as (hn & ch & _ & -> & Hrec).
    apply get_neighbor_types_keyed in Hrec as (_ & Hch & _). simpl in Hn.
    apply list_elem_of_bind in Hn as (c' & Hn & [i Hc']%list_elem_of_lookup).
    destruct (Hch i c' Hc') as [_ Hnodes].
    destruct (Hnodes n Hn) as [[Hkeyed _] _].
    by apply (Hbelow _ (tnode_children n)).
Qed.

(** Two hops from "Person" where people have two edge types: the entry
    reached by "rates" has the one edge type of movies below it. *)
Lemma sampling_tree_edge_types_chain_witness :
  n1 (mkEdgeType "Movie" "rates" "Person") =
  n2 (mkEdgeType "Person" "rates" "Movie").
Proof.
  refine (proj2 (sampling_tree_edge_types_chain movie_schema 3 ["Person"] 2
            [("0", "Person",
              [Tnode "0#0" (mkEdgeType "Person" "rates" "Movie")
                 [Tnode "0#0_0" (mkEdgeType "Movie" "rates" "Person") []]])]
            _ _)
          (Tnode "0#0" (mkEdgeType "Person" "rates" "Movie")
             [Tnode "0#0_0" (mkEdgeType "Movie" "rates" "Person") []])
          (Tnode "0#0_0" (mkEdgeType "Movie" "rates" "Person") []) _ _).
  - intros t ets et Ht Het. unfold movie_schema in Ht. simpl in Ht.
    rewrite lookup_insert in Ht. case_decide.
    { simplify_eq. by apply list_elem_of_singleton in Het as ->. }
    rewrite lookup_insert in Ht. case_decide.
    { simplify_eq. by apply list_elem_of_singleton in Het as ->. }
    by rewrite lookup_empty in Ht.
  - vm_compute. reflexivity.
  - simpl. left.
  - simpl. left.
Defined.

(** ** The adjacency list is in breadth-first order *)

Lemma concat_childless (l : list (label * list nat)) :
  (∀ x, x ∈ l → x.2 = []) → concat (snd <$> l) = [].
Proof.
  induction l as [|x l IH]; intros Hl; [done|].
  rewrite fmap_cons. simpl. rewrite (Hl x) by left. simpl.
  apply IH. intros y ?. apply Hl. by right.
Qed.

Lemma StronglySorted_seq (a m : nat) : StronglySorted lt (seq a m).
Proof.
  revert a. induction m as [|m IH]; intros a; simpl; constructor; [apply IH|].
  apply Forall_forall. intros j Hj%elem_of_seq. lia.
Qed.

Lemma bfs_order_step sch n_hops heads H clist lv nt ninx lvl q ets :
  queue_inv sch n_hops heads clist lv ((nt, ninx, lvl) :: q) →
  bfs_order H clist ((nt, ninx, lvl) :: q) →
  bfs_order H
    (<[ninx := (nt, [] ++ seq (length clist) (length ets))]> clist
       ++ ((λ et, (n2 et, [])) <$> ets))
    (q ++ if decide (n_hops > Z.of_nat lvl + 1)
          then imap (λ k et, (n2 et, (length clist + k)%nat, S lvl)) ets
          else []).
Proof.
  intros (_ & _ & Hq & _) (Hsorted & Hparents & Hheads & Hconcat). simpl in *.
  destruct (Hq nt ninx lvl) as (Hninx & _ & _); [by left|].
  assert (ninx < length clist)%nat as Hlt by (by eapply lookup_lt_Some).
  apply StronglySorted_cons in Hsorted as [Hfirst Hsorted].
  assert (Forall (λ j, j < length clist)%nat (q.*1.*2)) as Hrange.
  { apply Forall_forall. intros i Hi.
    apply list_elem_of_fmap in Hi as ([nt1 i1] & -> & Hi).
    apply list_elem_of_fmap in Hi as ([[nt2 i2] l2] & ? & Hi). simplify_eq/=.
    destruct (Hq nt2 i2 l2) as (Hi2 & _ & _); [by right|].
    by eapply lookup_lt_Some. }
  assert ((if decide (n_hops > Z.of_nat lvl + 1)
           then imap (λ k et, (n2 et, (length clist + k)%nat, S lvl)) ets
           else []).*1.*2 =
          if decide (n_hops > Z.of_nat lvl + 1)
          then seq (length clist) (length ets) else []) as Hnew.
  { case_decide; [apply imap_queue_indices|done]. }
  split_and!.
  - rewrite !fmap_app, Hnew. apply StronglySorted_app_2; [|done|].
    + intros i j Hi Hj. rewrite Forall_forall in Hrange.
      specialize (Hrange i Hi). case_decide; [|by apply elem_of_nil in Hj].
      apply elem_of_seq in Hj. lia.
    + case_decide; [apply StronglySorted_seq|constructor].
  - intros i nt' cs Hi Hcs. rewrite !fmap_app, Hnew. apply Forall_app.
    apply lookup_app_Some in Hi as [Hi|[_ Hi]].
    + assert (i ≤ ninx)%nat as Hle.
      { destruct (decide (i = ninx)) as [->|Hne]; [done|].
        rewrite list_lookup_insert_ne in Hi by done.
        specialize (Hparents i nt' cs Hi Hcs).
        apply Forall_cons in Hparents as [? _]. lia. }
      split.
      * eapply Forall_impl; [exact Hfirst|]. simpl. intros j ?. lia.
      * case_decide; [|constructor].
        apply Forall_forall. intros j Hj%elem_of_seq. lia.
    + apply list_lookup_fmap_Some in Hi as (et & ? & _). by simplify_eq.
  - rewrite length_app, length_insert. lia.
  - rewrite fmap_app, concat_app.
    rewrite (concat_childless ((λ et, (n2 et, [])) <$> ets)).
    2:{ by intros x (et & -> & _)%list_elem_of_fmap. }
    rewrite app_nil_r, length_app, length_insert, length_fmap.
    rewrite insert_take_drop by done.
    rewrite fmap_app, fmap_cons, concat_app. simpl.
    rewrite (concat_childless (drop (S ninx) clist)).
    2:{ intros [nt' cs] Hx. simpl.
        apply list_elem_of_lookup in Hx as [k Hk]. rewrite lookup_drop in Hk.
        destruct cs as [|c cs]; [done|].
        specialize (Hparents _ _ _ Hk ltac:(done)).
        apply Forall_cons in Hparents as [? _]. lia. }
    rewrite app_nil_r.
    assert (concat (snd <$> take ninx clist) = seq H (length clist - H)) as ->.
    { rewrite <-Hconcat. rewrite <-(take_drop_middle clist ninx (nt, [])) at 2
        by done.
      rewrite fmap_app, fmap_cons, concat_app. simpl.
      rewrite (concat_childless (drop (S ninx) clist)); [by rewrite app_nil_r|].
      intros [nt' cs] Hx. simpl.
      apply list_elem_of_lookup in Hx as [k Hk]. rewrite lookup_drop in Hk.
      destruct cs as [|c cs]; [done|].
      specialize (Hparents _ _ _ Hk ltac:(done)).
      apply Forall_cons in Hparents as [? _]. lia. }
    replace (length clist + length ets - H)%nat
      with ((length clist - H) + length ets)%nat by lia.
    rewrite seq_app. do 2 f_equal. lia.
Qed.

Lemma process_queue_bfs_order sch n_hops heads H fuel :
  ∀ clist q lv r,
    queue_inv sch n_hops heads clist lv q → bfs_order H clist q →
    process_queue sch n_hops fuel clist q = Ok r → bfs_order H r [].
Proof.
  induction fuel as [|fuel IH]; intros clist q lv r Hinv Horder.
  { destruct q as [|[[??]?]]; [|done]. by intros [= <-]. }
  destruct q as [|[[nt ninx] lvl] q]; [by intros [= <-]|].
  simpl. unfold getitem. destruct (sch !! nt) as [ets|] eqn:Hets; [|done]. cbn.
  pose proof Hinv as (_ & _ & Hq & _).
  destruct (Hq nt ninx lvl) as (Hninx & _ & _); [by left|].
  rewrite (foldlM_visit_edge_type_Ok _ _ _ _ _ _ nt []) by done. cbn.
  apply IH with (lv := lv ++ replicate (length ets) (S lvl)).
  - by apply queue_inv_step.
  - by eapply bfs_order_step.
Qed.

(** X19: in a returned adjacency list the children lists, read in the
    order of the entries, enumerate the indices that follow the head
    entries, each once and in ascending order: every entry after the
    heads is the child of exactly one entry, and the list is in
    breadth-first order. *)
Theorem adjacency_children_enumerate_entries gs fuel heads n_hops clist :
  get_type_adjacency_list gs fuel heads n_hops = Ok clist →
  concat (snd <$> clist) =
  seq (length heads) (length clist - length heads).
Proof.
  intros Hrun. destruct (decide (0 ≤ n_hops)) as [Hn|Hn].
  - rewrite get_type_adjacency_list_unfold in Hrun.
    eapply (process_queue_bfs_order _ _ heads (length heads)) in Hrun
      as (_ & _ & _ & Hconcat); [done|by apply queue_inv_init|].
    split_and!.
    + case_decide; [|constructor]. rewrite imap_head_indices.
      apply StronglySorted_seq.
    + intros i nt cs (hn & ? & _)%list_lookup_fmap_Some. by simplify_eq.
    + by rewrite length_fmap.
    + rewrite length_fmap, Nat.sub_diag. simpl. apply concat_childless.
      by intros x (hn & -> & _)%list_elem_of_fmap.
  - rewrite get_type_adjacency_list_no_hops in Hrun by lia.
    injection Hrun as <-. rewrite length_fmap, Nat.sub_diag. simpl.
    apply concat_childless. by intros x (hn & -> & _)%list_elem_of_fmap.
Qed.

(** The two-hop adjacency list of the movie schema. *)
Lemma adjacency_children_enumerate_entries_witness :
  concat (snd <$> [("Person", [2%nat]); ("Movie", [3%nat]); ("Movie", [4%nat]);
                   ("Person", [5%nat]); ("Person", []); ("Movie", [])])
  = seq 2 4.
Proof.
  refine (adjacency_children_enumerate_entries movie_schema 4
            ["Person"; "Movie"] 2 _ _).
  vm_compute. reflexivity.
Defined.
